(** * mattools/matrix: a shallow embedding of matrix.go

    The Go package [matrix] puts three storage layouts (dense, sparse
    coordinate, sparse diagonal) behind one [Matrix] interface and hands
    inverse, solve and norm to gonum's [mat64].  This development embeds
    the constructors and the backend bridge of [matrix.go] and states
    the properties of the design document about them.

    Conventions.
    - Go's [int] is [Z]; the one product the source computes on values
      that are not lengths ([rows * cols]) is wrapped to 64 bits.
    - Go's [float64] is the kernel's binary64 ([PrimFloat.float]), so
      [==], [<] and NaN behave as in IEEE 754.
    - A call that may panic returns an [outcome]; the panic carries the
      reason instead of the formatted message.
    - [math/rand]'s global source is a tape of the results it will hand
      out; a sampling loop that uses up the tape has not terminated
      within it and yields [Spin]. *)

From Stdlib Require Import ZArith List Lia Bool.
From Stdlib Require Floats.
From stdpp Require Import base option list gmap fin_sets.

Open Scope Z_scope.

(** ** Machine numbers *)

Module Go.

Definition float64 : Set := PrimFloat.float.

Definition min_int : Z := - 2 ^ 63.
Definition max_int : Z := 2 ^ 63 - 1.

(** Two's complement wrap-around of a 64-bit [int]. *)
Definition wrap (z : Z) : Z := (z + 2 ^ 63) mod 2 ^ 64 - 2 ^ 63.

Definition mul (a b : Z) : Z := wrap (a * b).

(** [a == b], [a != b], [a < b], [a >= b] on float64. *)
Definition feq (a b : float64) : bool := PrimFloat.eqb a b.
Definition fne (a b : float64) : bool := negb (PrimFloat.eqb a b).
Definition flt (a b : float64) : bool := PrimFloat.ltb a b.
Definition fge (a b : float64) : bool := PrimFloat.leb b a.

Definition fzero : float64 := PrimFloat.zero.
Definition fone : float64 := PrimFloat.one.

(** [math.NaN()] and [math.IsNaN]. *)
Definition NaN : float64 := PrimFloat.nan.
Definition IsNaN (f : float64) : bool := negb (PrimFloat.eqb f f).

(** The conversion [float64(n)]: round to nearest, ties to even. *)
Definition float64_of_int (n : Z) : float64 :=
  FloatOps.SF2Prim
    (SpecFloat.binary_normalize FloatOps.prec FloatOps.emax n 0 false).

(** The conversion [int(f)]: the fraction is discarded.  A value that
    does not fit (NaN, the infinities, a magnitude of 2^63 or more) is
    implementation-specific in Go; amd64 yields the smallest int. *)
Definition int_of_float64 (f : float64) : Z :=
  match FloatOps.Prim2SF f with
  | SpecFloat.S754_zero _ => 0
  | SpecFloat.S754_finite s m e =>
      let a := if 0 <=? e then Z.pos m * 2 ^ e else Z.pos m / 2 ^ (- e) in
      let z := if s then - a else a in
      if (min_int <=? z) && (z <=? max_int) then z else min_int
  | _ => min_int
  end.

End Go.

Abbreviation float64 := Go.float64.

(** ** Outcomes of a call *)

(** The reasons for which the modelled code stops fatally. *)
Inductive fatal : Type :=
| DiagTooLong (n rows cols : Z)
    (* "Can't use %d diag elements in a %dx%d matrix" *)
| BadDensityRand (density : float64)
    (* "Can't create a SparseRand matrix: density %f should be in [0, 1)" *)
| BadDensityRandN (density : float64)
    (* "Can't create a SparseRandN matrix: density %f should be in [0, 1)" *)
| BadIndex            (* a flat index or a coordinate outside the shape *)
| OffDiagonalWrite    (* a write to a structurally zero cell *)
| IndexOutOfRange     (* the runtime's slice bounds check *)
| NegativeLen         (* make with a negative length *)
| IntnArgument        (* rand.Intn(n) with n <= 0 *)
| NotTwoDimensional   (* .M() on an array that is not 2-D *)
| BackendShape        (* mat64: the data does not fit the dimensions *)
| BackendPanic.       (* any other panic raised inside mat64 *)

Inductive outcome (A : Type) : Type :=
| Ret (a : A)
| Panic (why : fatal)
| Spin.

Arguments Ret {A} a.
Arguments Panic {A} why.
Arguments Spin {A}.

Definition bind {A B : Type} (m : outcome A) (k : A → outcome B) : outcome B :=
  match m with
  | Ret a => k a
  | Panic why => Panic why
  | Spin => Spin
  end.

Notation "'do' x <- m ; k" := (bind m (λ x, k))
  (at level 10, x name, m at level 100, k at level 200,
   format "'[v' 'do'  x  <-  m ; '/' k ']'").

Definition panics {A : Type} (m : outcome A) : Prop := ∃ why, m = Panic why.

(** ** Slices *)

(** [make([]T, n)]. *)
Definition make {A : Type} (zero : A) (n : Z) : outcome (list A) :=
  if n <? 0 then Panic NegativeLen else Ret (replicate (Z.to_nat n) zero).

(** [s[i]] and [s[i] = v], with the runtime's bounds check. *)
Definition slice_get {A : Type} (s : list A) (i : Z) : outcome A :=
  if i <? 0 then Panic IndexOutOfRange
  else match s !! Z.to_nat i with
       | Some v => Ret v
       | None => Panic IndexOutOfRange
       end.

Definition slice_set {A : Type} (s : list A) (i : Z) (v : A) : outcome (list A) :=
  if (0 <=? i) && (i <? Z.of_nat (length s))
  then Ret (<[Z.to_nat i := v]> s)
  else Panic IndexOutOfRange.

(** [0, 1, ..., n-1], the values of a counting loop. *)
Definition upto (n : Z) : list Z := seqZ 0 n.

(** ** Shape/index mapper *)

Definition product (shape : list Z) : Z := foldr Z.mul 1 shape.

(** The last extent is peeled off first: [unravel] returns the coordinate
    of the extents it has seen and the quotient still to be split. *)
Fixpoint unravel (shape : list Z) (flatIndex : Z) : list Z * Z :=
  match shape with
  | [] => ([], flatIndex)
  | d :: ds =>
      let '(cs, q) := unravel ds flatIndex in
      (Z.rem q d :: cs, Z.quot q d)
  end.

(** Modelled from the spec: flatToNd, which matrix.go calls and does not
    define.  "Precondition: 0 <= flatIndex < product(shape); violating it
    ... fails fatally.  Row-major decomposition: the coordinate's last
    component is flatIndex mod shape[last], successive components divide
    by successive trailing extents." *)
Definition flatToNd (shape : list Z) (flatIndex : Z) : outcome (list Z) :=
  if (0 <=? flatIndex) && (flatIndex <? product shape)
  then Ret (unravel shape flatIndex).1
  else Panic BadIndex.

(** A coordinate has one component per dimension, each within its extent. *)
Fixpoint valid_coord (shape coord : list Z) : bool :=
  match shape, coord with
  | [], [] => true
  | d :: ds, c :: cs => (0 <=? c) && (c <? d) && valid_coord ds cs
  | _, _ => false
  end.

Fixpoint ravel (shape coord : list Z) (acc : Z) : Z :=
  match shape, coord with
  | d :: ds, c :: cs => ravel ds cs (acc * d + c)
  | _, _ => acc
  end.

(** Modelled from the spec: the coordinate-to-flat mapping, absent from
    matrix.go.  "Element at coordinate (i,j) lives at flat index
    i*cols+j" (row-major, the last dimension varies fastest). *)
Definition ndToFlat (shape coord : list Z) : outcome Z :=
  if valid_coord shape coord then Ret (ravel shape coord 0) else Panic BadIndex.

(** A shape is valid when no extent is negative. *)
Definition valid_shape (shape : list Z) : Prop := Forall (λ d, 0 ≤ d) shape.

(** ** Loops *)

(** [for _, x := range l { st = body(st, x) }], stopping at the first
    panic. *)
Fixpoint for_each {A S : Type} (body : S → A → outcome S) (l : list A) (st : S)
  : outcome S :=
  match l with
  | [] => Ret st
  | x :: l' => do st' <- body st x; for_each body l' st'
  end.

(** [for idx, x := range l { st = body(st, idx, x) }], counting from [idx]. *)
Fixpoint for_range {A S : Type} (body : S → Z → A → outcome S) (idx : Z)
    (l : list A) (st : S) : outcome S :=
  match l with
  | [] => Ret st
  | x :: l' => do st' <- body st idx x; for_range body (idx + 1) l' st'
  end.

(** The results of [f] on the elements of [l], in order. *)
Fixpoint collect {A B : Type} (f : A → outcome B) (l : list A) : outcome (list B) :=
  match l with
  | [] => Ret []
  | x :: l' => do y <- f x; do ys <- collect f l'; Ret (y :: ys)
  end.

(** ** Storage representations *)

(** The three concrete types behind the [Matrix] interface.  Their
    declarations are not in matrix.go; the fields are the ones its
    composite literals name. *)
Inductive Matrix : Type :=
| denseF64Array (shape : list Z) (array : list float64)
| sparseCooF64Matrix (shape : list Z) (values : list (gmap Z float64))
| sparseDiagF64Matrix (shape : list Z) (diag : list float64).

Definition Shape (m : Matrix) : list Z :=
  match m with
  | denseF64Array shape _ => shape
  | sparseCooF64Matrix shape _ => shape
  | sparseDiagF64Matrix shape _ => shape
  end.

Definition Rows (m : Matrix) : outcome Z := slice_get (Shape m) 0.
Definition Cols (m : Matrix) : outcome Z := slice_get (Shape m) 1.

(** Modelled from the spec: Item, the element read of the three
    representations.  Dense: "element at coordinate (i,j) lives at flat
    index i*cols+j".  Sparse coordinate: "row i owns a mapping from column
    index to nonzero value; absence of a key means value 0".  Sparse
    diagonal: "value at position k represents coordinate (k,k)"; "reading
    any off-diagonal coordinate always returns 0". *)
Definition Item (m : Matrix) (index : list Z) : outcome float64 :=
  match m with
  | denseF64Array shape array =>
      do flat <- ndToFlat shape index;
      slice_get array flat
  | sparseCooF64Matrix shape values =>
      if valid_coord shape index then
        match index with
        | [i; j] =>
            do row <- slice_get values i;
            Ret (default Go.fzero (row !! j))
        | _ => Panic BadIndex
        end
      else Panic BadIndex
  | sparseDiagF64Matrix shape diag =>
      if valid_coord shape index then
        match index with
        | [i; j] => if i =? j then slice_get diag i else Ret Go.fzero
        | _ => Panic BadIndex
        end
      else Panic BadIndex
  end.

(** Modelled from the spec: ItemSet, the element write.  The receiver is
    a pointer in Go, so the updated matrix is returned.  Sparse
    coordinate: "stores whatever value is given at the given coordinate,
    overwriting any prior entry for that coordinate".  Sparse diagonal:
    "writing to any off-diagonal coordinate fails fatally". *)
Definition ItemSet (m : Matrix) (value : float64) (index : list Z) : outcome Matrix :=
  match m with
  | denseF64Array shape array =>
      do flat <- ndToFlat shape index;
      do array' <- slice_set array flat value;
      Ret (denseF64Array shape array')
  | sparseCooF64Matrix shape values =>
      if valid_coord shape index then
        match index with
        | [i; j] =>
            do row <- slice_get values i;
            do values' <- slice_set values i (<[j := value]> row);
            Ret (sparseCooF64Matrix shape values')
        | _ => Panic BadIndex
        end
      else Panic BadIndex
  | sparseDiagF64Matrix shape diag =>
      if valid_coord shape index then
        match index with
        | [i; j] =>
            if i =? j then
              do diag' <- slice_set diag i value;
              Ret (sparseDiagF64Matrix shape diag')
            else Panic OffDiagonalWrite
        | _ => Panic BadIndex
        end
      else Panic BadIndex
  end.

(** The cell at a flat (row-major) position. *)
Definition cell (m : Matrix) (flat : Z) : outcome float64 :=
  do coord <- flatToNd (Shape m) flat;
  Item m coord.

(** Modelled from the spec: Array, which ToMat64 calls on the interface:
    "materializes a fully dense, row-major copy of any representation
    (densifying sparse ones)". *)
Definition Array (m : Matrix) : outcome (list float64) :=
  match m with
  | denseF64Array _ array => Ret array
  | _ => collect (cell m) (upto (product (Shape m)))
  end.

(** Modelled from the spec: WithValue and the conversion M of its result
    to a matrix, which LDivide calls: a dense array of the given shape
    "filled entirely with" the value "in every cell". *)
Definition WithValue (value : float64) (shape : list Z) : outcome Matrix :=
  do array <- make value (product shape);
  Ret (denseF64Array shape array).

Definition M (a : Matrix) : outcome Matrix :=
  if Nat.eqb (length (Shape a)) 2 then Ret a else Panic NotTwoDimensional.

(** The number of cells that compare unequal to zero. *)
Definition is_nonzero (m : Matrix) (flat : Z) : bool :=
  match cell m flat with
  | Ret v => Go.fne v Go.fzero
  | _ => false
  end.

Definition CountNonzero (m : Matrix) : nat :=
  length (filter (λ flat, is_nonzero m flat = true) (upto (product (Shape m)))).

(** The number of entries a sparse coordinate matrix keeps. *)
Definition stored_entries (m : Matrix) : nat :=
  match m with
  | sparseCooF64Matrix _ values => sum_list_with size values
  | _ => 0%nat
  end.

(** ** Constructors of matrix.go *)

Definition SparseCoo (rows cols : Z) (array : list float64) : outcome Matrix :=
  (* make([]map[int]float64, rows), each row then set to an empty map *)
  do values <- make (∅ : gmap Z float64) rows;
  let m := sparseCooF64Matrix [rows; cols] values in
  for_range
    (λ m idx val,
       if Go.fne val Go.fzero then
         do coord <- flatToNd (Shape m) idx;
         ItemSet m val coord
       else Ret m)
    0 array m.

Definition SparseDiag (rows cols : Z) (diag : list float64) : outcome Matrix :=
  let n := Z.of_nat (length diag) in
  if (n >? rows) || (n >? cols) then Panic (DiagTooLong n rows cols)
  else
    let size := if cols <? rows then cols else rows in
    do buf <- make Go.fzero size;
    do buf' <- for_range (λ buf pos v, slice_set buf pos v) 0 diag buf;
    Ret (sparseDiagF64Matrix [rows; cols] buf').

(** ** math/rand *)

(** The results the global source will hand out, per function. *)
Record Rand : Type := mkRand {
  intn_tape : list Z;
  float64_tape : list float64;
  normfloat64_tape : list float64;
}.

Definition Intn (n : Z) (r : Rand) : outcome (Z * Rand) :=
  if n <=? 0 then Panic IntnArgument
  else match intn_tape r with
       | [] => Spin
       | z :: tape => Ret (z, mkRand tape (float64_tape r) (normfloat64_tape r))
       end.

Definition Float64 (r : Rand) : outcome (float64 * Rand) :=
  match float64_tape r with
  | [] => Spin
  | x :: tape => Ret (x, mkRand (intn_tape r) tape (normfloat64_tape r))
  end.

Definition NormFloat64 (r : Rand) : outcome (float64 * Rand) :=
  match normfloat64_tape r with
  | [] => Spin
  | x :: tape => Ret (x, mkRand (intn_tape r) (float64_tape r) tape)
  end.

(** ** Randomized sparse population *)

(** The inner [for { ... }] of SparseRand and SparseRandN: draw a cell
    until one reads zero, then store a value from [draw] there.  Every
    turn takes one result of Intn, so [fuel] above the length of its
    tape is never used up. *)
Fixpoint place (draw : Rand → outcome (float64 * Rand)) (shape : list Z) (size : Z)
    (fuel : nat) (matrix : Matrix) (r : Rand) : outcome (Matrix * Rand) :=
  match fuel with
  | O => Spin
  | S fuel' =>
      do zr <- Intn size r;
      do coord <- flatToNd shape zr.1;
      do v <- Item matrix coord;
      if Go.feq v Go.fzero then
        do xr <- draw zr.2;
        do matrix' <- ItemSet matrix xr.1 coord;
        Ret (matrix', xr.2)
      else place draw shape size fuel' matrix zr.2
  end.

(** The target count of SparseRand and SparseRandN:
    [int(float64(size) * density)]. *)
Definition target_count (size : Z) (density : float64) : Z :=
  Go.int_of_float64 (PrimFloat.mul (Go.float64_of_int size) density).

(** The body the two functions share after the density check; they
    differ in the source of the values only. *)
Definition populate (draw : Rand → outcome (float64 * Rand)) (rows cols : Z)
    (density : float64) (r : Rand) : outcome (Matrix * Rand) :=
  do matrix <- SparseCoo rows cols [];
  let shape := [rows; cols] in
  let size := Go.mul rows cols in
  let count := target_count size density in
  for_each
    (λ st _, place draw shape size (S (length (intn_tape st.2))) st.1 st.2)
    (upto count) (matrix, r).

Definition bad_density (density : float64) : bool :=
  Go.flt density Go.fzero || Go.fge density Go.fone.

Definition SparseRand (rows cols : Z) (density : float64) (r : Rand)
  : outcome (Matrix * Rand) :=
  if bad_density density then Panic (BadDensityRand density)
  else populate Float64 rows cols density r.

Definition SparseRandN (rows cols : Z) (density : float64) (r : Rand)
  : outcome (Matrix * Rand) :=
  if bad_density density then Panic (BadDensityRandN density)
  else populate NormFloat64 rows cols density r.

(** ** The backend, gonum's mat64 *)

(** A [mat64.Dense]: dimensions and a row-major buffer. *)
Record Dense : Type := mkDense {
  mat_rows : Z;
  mat_cols : Z;
  mat_data : list float64;
}.

(** [mat64.NewDense(r, c, data)] panics unless [data] has r*c elements. *)
Definition NewDense (r c : Z) (data : list float64) : outcome Dense :=
  if Go.mul r c =? Z.of_nat (length data)
  then Ret (mkDense r c data)
  else Panic BackendShape.

Definition Dims (m : Dense) : Z * Z := (mat_rows m, mat_cols m).

(** [m.At(i, j)], with mat64's own range checks. *)
Definition At (m : Dense) (i j : Z) : outcome float64 :=
  if (0 <=? i) && (i <? mat_rows m) && (0 <=? j) && (j <? mat_cols m)
  then slice_get (mat_data m) (i * mat_cols m + j)
  else Panic BackendShape.

(** The decompositions are the backend's business.  A call returns what
    Go returns, the matrix and the error (absent for nil), or panics. *)
Class Backend : Type := {
  error : Type;
  mat64_Inverse : Dense → outcome (Dense * option error);
  mat64_Solve : Dense → Dense → outcome (Dense * option error);
}.

(** ** The backend bridge of matrix.go *)

Definition ToMat64 (m : Matrix) : outcome Dense :=
  do rows <- Rows m;
  do cols <- Cols m;
  do array <- Array m;
  NewDense rows cols array.

Definition ToMatrix (m : Dense) : outcome Matrix :=
  let '(rows, cols) := Dims m in
  do buf <- make Go.fzero (Go.mul rows cols);
  let array := denseF64Array [rows; cols] buf in
  for_each
    (λ array i0,
       for_each
         (λ array i1, do v <- At m i0 i1; ItemSet array v [i0; i1])
         (upto cols) array)
    (upto rows) array.

Section Bridge.
Context `{backend : Backend}.

(** [(Matrix, error)]: either component may be nil. *)
Definition Inverse (a : Matrix) : outcome (option Matrix * option error) :=
  do A <- ToMat64 a;
  do res <- mat64_Inverse A;
  match res.2 with
  | Some err => Ret (None, Some err)
  | None => do inv <- ToMatrix res.1; Ret (Some inv, None)
  end.

Definition LDivide (a b : Matrix) : outcome Matrix :=
  do A <- ToMat64 a;
  do B <- ToMat64 b;
  do res <- mat64_Solve A B;
  match res.2 with
  | Some _ =>
      do rows <- slice_get (Shape a) 0;
      do cols <- slice_get (Shape b) 1;
      do x <- WithValue Go.NaN [rows; cols];
      M x
  | None => ToMatrix res.1
  end.

Definition Solve (a b : Matrix) : outcome Matrix := LDivide a b.

End Bridge.

(** Modelled from the spec: the method SparseDiag() of the interface,
    declared in matrix.go and implemented elsewhere: "produce a copy of
    the matrix re-expressed in the named sparse format"; it "must fail
    fatally if any off-diagonal cell is nonzero". *)
Definition Matrix_SparseDiag (m : Matrix) : outcome Matrix :=
  do rows <- Rows m;
  do cols <- Cols m;
  do target <- SparseDiag rows cols [];
  for_each
    (λ target flat,
       do coord <- flatToNd (Shape m) flat;
       do v <- Item m coord;
       match coord with
       | [i; j] =>
           if i =? j then ItemSet target v coord
           else if Go.fne v Go.fzero then Panic OffDiagonalWrite
           else Ret target
       | _ => Panic BadIndex
       end)
    (upto (product (Shape m))) target.

(** ** Well-formed values *)

(** What the constructors establish: a two-dimensional shape without a
    negative extent, whose cell count fits an [int], and storage of the
    matching length. *)
Definition wf_shape (rows cols : Z) : Prop :=
  0 ≤ rows ∧ 0 ≤ cols ∧ rows * cols ≤ Go.max_int.

Definition wf (m : Matrix) : Prop :=
  match m with
  | denseF64Array shape array =>
      ∃ rows cols, shape = [rows; cols] ∧ wf_shape rows cols
                   ∧ Z.of_nat (length array) = rows * cols
  | sparseCooF64Matrix shape values =>
      ∃ rows cols, shape = [rows; cols] ∧ wf_shape rows cols
                   ∧ Z.of_nat (length values) = rows
  | sparseDiagF64Matrix shape diag =>
      ∃ rows cols, shape = [rows; cols] ∧ wf_shape rows cols
                   ∧ Z.of_nat (length diag) = Z.min rows cols
  end.

(** The contract of math/rand on a tape: Intn(n) lies in [0, n) and
    Float64() in [0, 1). *)
Definition unit_interval (x : float64) : bool :=
  PrimFloat.leb Go.fzero x && PrimFloat.ltb x Go.fone.

Definition fair (n : Z) (r : Rand) : Prop :=
  Forall (λ z, 0 ≤ z < n) (intn_tape r)
  ∧ Forall (λ x, unit_interval x = true) (float64_tape r).

(** ** The remaining constructors and Norm of matrix.go *)

(** [Diag(diag...)]: an empty square SparseDiag, then one ItemSet per
    value at (i, i). *)
Definition Diag (diag : list float64) : outcome Matrix :=
  let n := Z.of_nat (length diag) in
  do array <- SparseDiag n n [];
  for_range (λ array i v, ItemSet array v [i; i]) 0 diag array.

(** [Eye(size)]: a slice of [size] ones, handed to Diag. *)
Definition Eye (size : Z) : outcome Matrix :=
  do diag <- make Go.fzero size;
  do diag' <- for_each (λ diag i, slice_set diag i Go.fone) (upto size) diag;
  Diag diag'.

(** The norm is the backend's business as well; mat64 panics on an
    order it does not know. *)
Class NormBackend : Type := {
  mat64_Norm : Dense → float64 → outcome float64;
}.

Definition Norm `{NormBackend} (m : Matrix) (ord : float64) : outcome float64 :=
  do A <- ToMat64 m;
  mat64_Norm A ord.

(** What a literal value reads back as from sparse coordinate storage: a
    value that compares equal to zero is not stored and reads +0. *)
Definition stored_value (v : float64) : float64 :=
  if Go.fne v Go.fzero then v else Go.fzero.

(** ** A backend for examples *)

(** A stand-in for mat64 on 2x2 systems, by the closed form of the
    inverse: it reports a singular matrix when the determinant is zero
    and panics on any other dimensions. *)
Inductive closed_form_error : Type := ErrSingular.

Definition closed_form_Inverse (a : Dense)
  : outcome (Dense * option closed_form_error) :=
  match mat_rows a, mat_cols a, mat_data a with
  | 2, 2, [p; q; r; s] =>
      let det := PrimFloat.sub (PrimFloat.mul p s) (PrimFloat.mul q r) in
      if Go.feq det Go.fzero then Ret (mkDense 0 0 [], Some ErrSingular)
      else
        Ret (mkDense 2 2
               [PrimFloat.div s det; PrimFloat.div (PrimFloat.opp q) det;
                PrimFloat.div (PrimFloat.opp r) det; PrimFloat.div p det],
             None)
  | _, _, _ => Panic BackendPanic
  end.

Definition closed_form_Solve (a b : Dense)
  : outcome (Dense * option closed_form_error) :=
  do res <- closed_form_Inverse a;
  match res.2, mat_data res.1 with
  | Some err, _ => Ret (mkDense 0 0 [], Some err)
  | None, [p; q; r; s] =>
      if mat_rows b =? 2 then
        let n := Z.to_nat (mat_cols b) in
        let top := take n (mat_data b) in
        let bottom := drop n (mat_data b) in
        let row := λ u v,
          zip_with (λ x y, PrimFloat.add (PrimFloat.mul u x) (PrimFloat.mul v y))
            top bottom in
        Ret (mkDense 2 (mat_cols b) (row p q ++ row r s), None)
      else Panic BackendPanic
  | None, _ => Panic BackendPanic
  end.

Definition closed_form_backend : Backend :=
  {| error := closed_form_error;
     mat64_Inverse := closed_form_Inverse;
     mat64_Solve := closed_form_Solve |}.

(** A stand-in for mat64's Norm: the infinity norm (the largest absolute
    row sum) for the order +Inf, a panic for any other order. *)
Definition abs_row_sum (row : list float64) : float64 :=
  foldr (λ x acc, PrimFloat.add (PrimFloat.abs x) acc) Go.fzero row.

Definition closed_form_Norm (a : Dense) (ord : float64) : outcome float64 :=
  if PrimFloat.eqb ord PrimFloat.infinity then
    let cols := Z.to_nat (mat_cols a) in
    Ret (foldr
           (λ i acc,
              let s := abs_row_sum (take cols (drop (i * cols) (mat_data a))) in
              if PrimFloat.ltb acc s then s else acc)
           Go.fzero (seq 0 (Z.to_nat (mat_rows a))))
  else Panic BackendPanic.

Definition closed_form_norm : NormBackend :=
  {| mat64_Norm := closed_form_Norm |}.

(** ** Views used by the statements *)

(** The entry a sparse coordinate storage keeps for row [i], column [j]. *)
Definition entry (values : list (gmap Z float64)) (i j : Z) : option float64 :=
  if i <? 0 then None
  else match values !! Z.to_nat i with
       | Some row => row !! j
       | None => None
       end.

(** The entry a row-major literal asks for at (i, j) when its first value
    belongs at flat position [k]: the value there, if there is one and it
    is not zero. *)
Definition literal_entry (rows cols k : Z) (array : list float64) (i j : Z)
  : option float64 :=
  if (0 <=? i) && (i <? rows) && (0 <=? j) && (j <? cols) && (k <=? i * cols + j)
  then match array !! Z.to_nat (i * cols + j - k) with
       | Some v => if Go.fne v Go.fzero then Some v else None
       | None => None
       end
  else None.

(** One half, a density for examples. *)
Definition half : float64 := PrimFloat.div PrimFloat.one PrimFloat.two.

(** A panic other than the two density panics. *)
Definition plain {A : Type} (o : outcome A) : Prop :=
  match o with
  | Panic (BadDensityRand _) | Panic (BadDensityRandN _) => False
  | _ => True
  end.

(** A source of values that never panics and leaves the Intn tape alone,
    as Float64 and NormFloat64 do. *)
Definition quiet (draw : Rand → outcome (float64 * Rand)) : Prop :=
  ∀ r, match draw r with
       | Ret xr => intn_tape xr.2 = intn_tape r
       | Panic _ => False
       | Spin => True
       end.

(** A sparse coordinate storage of [rows] rows. *)
Definition coo_of (rows cols : Z) (m : Matrix) : Prop :=
  ∃ values, m = sparseCooF64Matrix [rows; cols] values
            ∧ Z.of_nat (length values) = rows.

(** The storage keeps an entry exactly at the flat positions in [cells],
    all of them cells of the matrix, and every entry is a nonzero value
    of [0, 1). *)
Definition filled (rows cols : Z) (cells : gset Z)
    (values : list (gmap Z float64)) : Prop :=
  Z.of_nat (length values) = rows
  ∧ (∀ z, z ∈ cells → 0 ≤ z < rows * cols)
  ∧ sum_list_with size values = size cells
  ∧ (∀ i j, 0 ≤ i < rows → 0 ≤ j < cols →
       match entry values i j with
       | Some v => i * cols + j ∈ cells
                   ∧ Go.fne v Go.fzero = true ∧ unit_interval v = true
       | None => i * cols + j ∉ cells
       end).

(** Every entry the storage keeps for a cell of the matrix sits at a
    flat position in [cells]. *)
Definition covered (rows cols : Z) (cells : gset Z)
    (values : list (gmap Z float64)) : Prop :=
  ∀ i j, 0 ≤ i < rows → 0 ≤ j < cols →
    is_Some (entry values i j) → i * cols + j ∈ cells.

(** The storage keeps an entry exactly at the flat positions in [cells],
    all of them cells of the matrix, and every entry is nonzero. *)
Definition occupied (rows cols : Z) (cells : gset Z)
    (values : list (gmap Z float64)) : Prop :=
  Z.of_nat (length values) = rows
  ∧ (∀ z, z ∈ cells → 0 ≤ z < rows * cols)
  ∧ sum_list_with size values = size cells
  ∧ (∀ i j, 0 ≤ i < rows → 0 ≤ j < cols →
       match entry values i j with
       | Some v => i * cols + j ∈ cells ∧ Go.fne v Go.fzero = true
       | None => i * cols + j ∉ cells
       end).

(** [n] nonzero values are ahead on the NormFloat64 tape. *)
Definition normals_ready (n : nat) (r : Rand) : Prop :=
  (n ≤ length (normfloat64_tape r))%nat
  ∧ Forall (λ x, Go.fne x Go.fzero = true) (normfloat64_tape r).

(** * Properties *)

(** ** Outcomes, slices and loops *)

Lemma bind_Ret {A B : Type} (m : outcome A) (k : A → outcome B) (b : B) :
  bind m k = Ret b ↔ ∃ a, m = Ret a ∧ k a = Ret b.
Proof.
  split.
  - destruct m as [a| |]; simpl; intros H; try discriminate. by exists a.
  - intros (a & -> & H). exact H.
Qed.

Lemma make_Ret {A : Type} (zero : A) (n : Z) :
  0 ≤ n → make zero n = Ret (replicate (Z.to_nat n) zero).
Proof.
  intros Hn. unfold make. destruct (Z.ltb_spec n 0); [lia | done].
Qed.

Lemma slice_get_Ret {A : Type} (s : list A) (i : Z) (v : A) :
  slice_get s i = Ret v ↔ 0 ≤ i ∧ s !! Z.to_nat i = Some v.
Proof.
  unfold slice_get. destruct (Z.ltb_spec i 0).
  - split; [discriminate | lia].
  - destruct (s !! Z.to_nat i) as [w|]; split.
    + intros [= ->]. done.
    + intros [_ [= ->]]. done.
    + discriminate.
    + intros [_ [=]].
Qed.

Lemma slice_set_Ret {A : Type} (s : list A) (i : Z) (v : A) :
  0 ≤ i < Z.of_nat (length s) → slice_set s i v = Ret (<[Z.to_nat i := v]> s).
Proof.
  intros Hi. unfold slice_set.
  destruct (Z.leb_spec 0 i); [|lia].
  destruct (Z.ltb_spec i (Z.of_nat (length s))); [done | lia].
Qed.

Lemma for_each_app {A S : Type} (body : S → A → outcome S) (l1 l2 : list A) (st : S) :
  for_each body (l1 ++ l2) st = do st' <- for_each body l1 st; for_each body l2 st'.
Proof.
  revert st. induction l1 as [|x l1 IH]; intros st; simpl; [done|].
  destruct (body st x) as [st'| |]; simpl; [apply IH | done | done].
Qed.

Lemma upto_succ (n : Z) : 0 ≤ n → upto (Z.succ n) = upto n ++ [n].
Proof.
  intros Hn. unfold upto.
  replace (Z.succ n) with (n + 1) by lia.
  rewrite seqZ_app by lia. by rewrite Z.add_0_l.
Qed.

Lemma upto_nonpos (n : Z) : n ≤ 0 → upto n = [].
Proof. intros Hn. unfold upto. by apply seqZ_nil. Qed.

Lemma elem_of_upto (n z : Z) : z ∈ upto n ↔ 0 ≤ z < n.
Proof. unfold upto. rewrite elem_of_seqZ. lia. Qed.

(** ** Shape/index mapper *)

Lemma product_pos (shape : list Z) :
  Forall (λ d, 0 < d) shape → 0 < product shape.
Proof.
  induction 1 as [|d ds Hd _ IH]; simpl; [lia | nia].
Qed.

Lemma valid_shape_pos (shape : list Z) :
  valid_shape shape → 0 < product shape → Forall (λ d, 0 < d) shape.
Proof.
  induction 1 as [|d ds Hd Hds IH]; simpl; intros Hp; [constructor|].
  assert (d ≠ 0) by (intros ->; lia).
  assert (0 < d) by lia.
  constructor; [done|]. apply IH. nia.
Qed.

Lemma ravel_acc (shape coord : list Z) (acc : Z) :
  valid_coord shape coord = true →
  ravel shape coord acc = acc * product shape + ravel shape coord 0.
Proof.
  revert coord acc. induction shape as [|d ds IH]; intros [|c cs] acc; simpl;
    try discriminate; [lia|].
  intros [[_ _]%andb_prop Hcs]%andb_prop.
  rewrite (IH cs (acc * d + c) Hcs), (IH cs (0 * d + c) Hcs). simpl. lia.
Qed.

Lemma ravel_bounds (shape coord : list Z) :
  valid_coord shape coord = true → 0 ≤ ravel shape coord 0 < product shape.
Proof.
  revert coord. induction shape as [|d ds IH]; intros [|c cs]; simpl;
    try discriminate; [lia|].
  intros [[Hc0 Hcd]%andb_prop Hcs]%andb_prop.
  apply Z.leb_le in Hc0. apply Z.ltb_lt in Hcd.
  rewrite (ravel_acc _ _ _ Hcs). specialize (IH cs Hcs). nia.
Qed.

(** What [unravel] computes: a valid coordinate, the quotient by the
    cell count, and the remainder as the coordinate's flat position. *)
Lemma unravel_spec (shape : list Z) (flat : Z) :
  Forall (λ d, 0 < d) shape → 0 ≤ flat →
  valid_coord shape (unravel shape flat).1 = true
  ∧ (unravel shape flat).2 = Z.quot flat (product shape)
  ∧ ravel shape (unravel shape flat).1 0 = Z.rem flat (product shape).
Proof.
  intros Hshape Hflat. induction Hshape as [|d ds Hd Hds IH]; simpl.
  - rewrite Z.quot_1_r, Z.rem_1_r. done.
  - destruct (unravel ds flat) as [cs q] eqn:Hu. simpl in *.
    destruct IH as (Hv & -> & Hr).
    pose proof (product_pos ds Hds) as Hp.
    assert (0 ≤ flat `quot` product ds) as Hq by (apply Z.quot_pos; lia).
    pose proof (Z.rem_bound_pos (flat `quot` product ds) d Hq Hd) as [Hr0 Hrd].
    split; [|split].
    + rewrite Hv, andb_true_r. apply andb_true_intro.
      split; [by apply Z.leb_le | by apply Z.ltb_lt].
    + rewrite Z.quot_quot by lia. f_equal. lia.
    + rewrite (ravel_acc _ _ _ Hv), Hr.
      rewrite (Z.mul_comm d (product ds)), Z.mod_mul_r by lia. lia.
Qed.

Lemma flatToNd_Ret (shape : list Z) (flat : Z) :
  0 ≤ flat < product shape → flatToNd shape flat = Ret (unravel shape flat).1.
Proof.
  intros [H0 H1]. unfold flatToNd.
  destruct (Z.leb_spec 0 flat); [|lia].
  destruct (Z.ltb_spec flat (product shape)); [done | lia].
Qed.

Lemma flatToNd_inv (shape : list Z) (flat : Z) (coord : list Z) :
  flatToNd shape flat = Ret coord →
  0 ≤ flat < product shape ∧ coord = (unravel shape flat).1.
Proof.
  unfold flatToNd.
  destruct (Z.leb_spec 0 flat); simpl; [|discriminate].
  destruct (Z.ltb_spec flat (product shape)); [|discriminate].
  intros [= <-]. done.
Qed.

Lemma flatToNd_ndToFlat (shape : list Z) (flat : Z) :
  valid_shape shape → 0 ≤ flat < product shape →
  ∃ coord, flatToNd shape flat = Ret coord
           ∧ valid_coord shape coord = true
           ∧ ndToFlat shape coord = Ret flat.
Proof.
  intros Hshape Hflat.
  assert (Forall (λ d, 0 < d) shape) as Hpos
    by (apply valid_shape_pos; [done | lia]).
  destruct (unravel_spec shape flat Hpos) as (Hv & _ & Hr); [lia|].
  exists (unravel shape flat).1. split; [by apply flatToNd_Ret|].
  split; [done|]. unfold ndToFlat. rewrite Hv, Hr.
  by rewrite Z.rem_small.
Qed.

Lemma unravel_ravel (shape coord : list Z) (k : Z) :
  valid_coord shape coord = true → 0 ≤ k →
  unravel shape (k * product shape + ravel shape coord 0) = (coord, k).
Proof.
  revert coord k. induction shape as [|d ds IH]; intros [|c cs] k; simpl;
    try discriminate.
  - intros _ _. f_equal. lia.
  - intros [[Hc0 Hcd]%andb_prop Hcs]%andb_prop Hk.
    apply Z.leb_le in Hc0. apply Z.ltb_lt in Hcd.
    rewrite (ravel_acc _ _ _ Hcs).
    replace (k * (d * product ds) + ((0 * d + c) * product ds + ravel ds cs 0))
      with ((k * d + c) * product ds + ravel ds cs 0) by lia.
    rewrite (IH cs (k * d + c) Hcs) by nia.
    assert (0 ≤ (c + k * d) * c) as Hside
      by (apply Z.mul_nonneg_nonneg; [apply Z.add_nonneg_nonneg|]; nia).
    rewrite (Z.add_comm (k * d) c).
    f_equal.
    + f_equal. rewrite Z.rem_add by (done || lia). apply Z.rem_small. lia.
    + rewrite Z.quot_add by (done || lia). rewrite Z.quot_small by lia. lia.
Qed.

Lemma ndToFlat_flatToNd (shape coord : list Z) :
  valid_coord shape coord = true →
  ∃ flat, ndToFlat shape coord = Ret flat
          ∧ 0 ≤ flat < product shape
          ∧ flatToNd shape flat = Ret coord.
Proof.
  intros Hv. exists (ravel shape coord 0).
  pose proof (ravel_bounds _ _ Hv) as Hb.
  split; [unfold ndToFlat; by rewrite Hv|]. split; [done|].
  rewrite flatToNd_Ret by done.
  pose proof (unravel_ravel shape coord 0 Hv) as Hu.
  rewrite Z.mul_0_l, Z.add_0_l in Hu. by rewrite Hu.
Qed.

(** C4: for a valid shape and a flat index within it, flatToNd returns a
    coordinate that the coordinate-to-flat mapping sends back to the
    index; and the other way round, a valid coordinate goes to a flat
    index within the shape that flatToNd sends back to the coordinate.
    The two mappings are inverse to each other. *)
Theorem flatToNd_roundtrip (shape : list Z) :
  valid_shape shape →
  (∀ i, 0 ≤ i < product shape →
        ∃ coord, flatToNd shape i = Ret coord ∧ ndToFlat shape coord = Ret i)
  ∧ (∀ coord, valid_coord shape coord = true →
        ∃ i, ndToFlat shape coord = Ret i ∧ flatToNd shape i = Ret coord).
Proof.
  intros Hshape. split.
  - intros i Hi. destruct (flatToNd_ndToFlat shape i Hshape Hi) as (c & ? & _ & ?).
    by exists c.
  - intros coord Hv. destruct (ndToFlat_flatToNd shape coord Hv) as (i & ? & _ & ?).
    by exists i.
Qed.

Lemma flatToNd_roundtrip_witness :
  ∃ coord, flatToNd [2; 3] 4 = Ret coord ∧ ndToFlat [2; 3] coord = Ret 4.
Proof.
  assert (valid_shape [2; 3]) as Hshape by (repeat constructor; lia).
  destruct (flatToNd_roundtrip [2; 3] Hshape) as [Hflat _].
  apply (Hflat 4). simpl. lia.
Defined.

(** Two dimensions, spelled out. *)
Lemma valid_coord_2d (rows cols : Z) (coord : list Z) :
  valid_coord [rows; cols] coord = true
  ↔ ∃ i j, coord = [i; j] ∧ 0 ≤ i < rows ∧ 0 ≤ j < cols.
Proof.
  split.
  - destruct coord as [|i [|j [|k cs]]]; simpl; try discriminate.
    + rewrite andb_false_r. discriminate.
    + rewrite andb_true_r. intros [[Hi0 Hi1]%andb_prop [Hj0 Hj1]%andb_prop]%andb_prop.
      exists i, j. rewrite Z.leb_le in Hi0, Hj0. rewrite Z.ltb_lt in Hi1, Hj1. done.
    + rewrite !andb_false_r. discriminate.
  - intros (i & j & -> & [Hi0 Hi1] & [Hj0 Hj1]). simpl.
    apply Z.leb_le in Hi0, Hj0. apply Z.ltb_lt in Hi1, Hj1.
    by rewrite Hi0, Hi1, Hj0, Hj1.
Qed.

Lemma flatToNd_2d (rows cols flat : Z) :
  0 ≤ rows → 0 ≤ cols → 0 ≤ flat < rows * cols →
  ∃ i j, flatToNd [rows; cols] flat = Ret [i; j]
         ∧ 0 ≤ i < rows ∧ 0 ≤ j < cols ∧ flat = i * cols + j.
Proof.
  intros Hr Hc Hflat.
  assert (valid_shape [rows; cols]) as Hshape by (repeat constructor; done).
  destruct (flatToNd_ndToFlat [rows; cols] flat Hshape) as (coord & Hf & Hv & Hn).
  { simpl. lia. }
  apply valid_coord_2d in Hv as (i & j & -> & Hi & Hj).
  exists i, j. split; [done|]. split; [done|]. split; [done|].
  unfold ndToFlat in Hn.
  rewrite (proj2 (valid_coord_2d rows cols [i; j])) in Hn by (exists i, j; done).
  simpl in Hn. injection Hn as Hn. lia.
Qed.

Lemma flatToNd_2d_inv (rows cols flat : Z) (coord : list Z) :
  flatToNd [rows; cols] flat = Ret coord → 0 ≤ rows →
  ∃ i j, coord = [i; j] ∧ 0 ≤ flat < rows * cols
         ∧ 0 ≤ i < rows ∧ 0 ≤ j < cols ∧ flat = i * cols + j.
Proof.
  intros Hf Hr. pose proof (flatToNd_inv _ _ _ Hf) as [Hflat _].
  simpl in Hflat. assert (0 ≤ flat < rows * cols) as Hflat' by lia.
  assert (0 ≤ cols) as Hc by nia.
  destruct (flatToNd_2d rows cols flat Hr Hc Hflat') as (i & j & Hf' & ? & ? & ?).
  rewrite Hf in Hf'. injection Hf' as ->. exists i, j. done.
Qed.

Lemma flatToNd_2d_of_coord (rows cols i j : Z) :
  0 ≤ i < rows → 0 ≤ j < cols →
  flatToNd [rows; cols] (i * cols + j) = Ret [i; j].
Proof.
  intros Hi Hj.
  destruct (ndToFlat_flatToNd [rows; cols] [i; j]) as (flat & Hn & _ & Hf).
  { apply valid_coord_2d. exists i, j. done. }
  unfold ndToFlat in Hn.
  rewrite (proj2 (valid_coord_2d rows cols [i; j])) in Hn by (exists i, j; done).
  simpl in Hn. injection Hn as Hn.
  replace (i * cols + j) with flat by lia. done.
Qed.

(** A cell position determines its row and column. *)
Lemma flat_position_inj (cols i j i' j' : Z) :
  0 ≤ j < cols → 0 ≤ j' < cols → i * cols + j = i' * cols + j' →
  i = i' ∧ j = j'.
Proof.
  intros Hj Hj' Heq.
  assert (i = i') as -> by nia. lia.
Qed.

(** ** The constructor SparseDiag *)

(** Copying [diag] into a buffer from position [k] on. *)
Lemma for_range_slice_set (diag : list float64) (k : nat) (buf : list float64) :
  (k + length diag ≤ length buf)%nat →
  for_range (λ buf pos v, slice_set buf pos v) (Z.of_nat k) diag buf
  = Ret (take k buf ++ diag ++ drop (k + length diag) buf).
Proof.
  revert k buf. induction diag as [|v diag IH]; intros k buf Hlen; simpl in *.
  - by rewrite Nat.add_0_r, take_drop.
  - rewrite slice_set_Ret by lia. simpl. rewrite Nat2Z.id.
    replace (Z.of_nat k + 1) with (Z.of_nat (S k)) by lia.
    rewrite IH by (rewrite length_insert; lia).
    f_equal.
    assert (<[k:=v]> buf !! k = Some v) as Hk
      by (apply list_lookup_insert_eq; lia).
    rewrite (take_S_r _ _ _ Hk), take_insert_ge by lia.
    rewrite drop_insert_lt by lia.
    replace (k + S (length diag))%nat with (S k + length diag)%nat by lia.
    by rewrite <- app_assoc.
Qed.

Lemma SparseDiag_Ret (rows cols : Z) (diag : list float64) :
  Z.of_nat (length diag) ≤ Z.min rows cols →
  SparseDiag rows cols diag
  = Ret (sparseDiagF64Matrix [rows; cols]
           (diag ++ replicate (Z.to_nat (Z.min rows cols) - length diag) Go.fzero)).
Proof.
  intros Hn. unfold SparseDiag.
  destruct (Z.gtb_spec (Z.of_nat (length diag)) rows); [lia|].
  destruct (Z.gtb_spec (Z.of_nat (length diag)) cols); [lia|]. simpl.
  assert ((if cols <? rows then cols else rows) = Z.min rows cols) as ->
    by (destruct (Z.ltb_spec cols rows); lia).
  rewrite make_Ret by lia. simpl.
  rewrite (for_range_slice_set diag 0) by (rewrite length_replicate; lia).
  simpl. by rewrite drop_replicate.
Qed.

Lemma SparseDiag_Panic (rows cols : Z) (diag : list float64) :
  Z.min rows cols < Z.of_nat (length diag) →
  SparseDiag rows cols diag
  = Panic (DiagTooLong (Z.of_nat (length diag)) rows cols).
Proof.
  intros Hn. unfold SparseDiag.
  destruct (Z.gtb_spec (Z.of_nat (length diag)) rows); [done|].
  destruct (Z.gtb_spec (Z.of_nat (length diag)) cols); [done|lia].
Qed.

(** C7: SparseDiag(rows, cols, diag...) panics exactly when diag has more
    than min(rows, cols) values.  With at most that many it returns a
    sparse diagonal matrix whose buffer has min(rows, cols) cells, where
    every supplied value sits at its own position, so that the cell
    (pos, pos) reads it back, and the cells after them are zero. *)
Theorem SparseDiag_construction (rows cols : Z) (diag : list float64) :
  (panics (SparseDiag rows cols diag) ↔ Z.min rows cols < Z.of_nat (length diag))
  ∧ (Z.of_nat (length diag) ≤ Z.min rows cols →
     ∃ buf,
       SparseDiag rows cols diag = Ret (sparseDiagF64Matrix [rows; cols] buf)
       ∧ Z.of_nat (length buf) = Z.min rows cols
       ∧ (∀ pos v, diag !! pos = Some v →
            buf !! pos = Some v
            ∧ Item (sparseDiagF64Matrix [rows; cols] buf)
                [Z.of_nat pos; Z.of_nat pos] = Ret v)
       ∧ (∀ pos, (length diag ≤ pos < length buf)%nat →
            buf !! pos = Some Go.fzero)).
Proof.
  split.
  - split.
    + intros [why Hwhy].
      destruct (Z.lt_ge_cases (Z.min rows cols) (Z.of_nat (length diag)))
        as [Hlt | Hge]; [done|].
      rewrite SparseDiag_Ret in Hwhy by lia. discriminate.
    + intros Hlt. eexists. by apply SparseDiag_Panic.
  - intros Hn. eexists. split; [by apply SparseDiag_Ret|].
    split; [rewrite length_app, length_replicate; lia|]. split.
    + intros pos v Hpos.
      pose proof (lookup_lt_Some _ _ _ Hpos) as Hlt.
      assert ((diag ++ replicate (Z.to_nat (Z.min rows cols) - length diag)
                 Go.fzero) !! pos = Some v) as Hbuf
        by (rewrite lookup_app_l; done).
      split; [done|]. unfold Item.
      rewrite (proj2 (valid_coord_2d rows cols [Z.of_nat pos; Z.of_nat pos]))
        by (eexists _, _; split; [done | lia]).
      rewrite Z.eqb_refl. apply slice_get_Ret.
      split; [lia|]. by rewrite Nat2Z.id.
    + intros pos [Hlo Hhi]. rewrite length_app, length_replicate in Hhi.
      rewrite lookup_app_r by done. apply lookup_replicate_2. lia.
Qed.

Lemma SparseDiag_construction_witness :
  ∃ buf,
    SparseDiag 2 3 [PrimFloat.one; PrimFloat.two]
    = Ret (sparseDiagF64Matrix [2; 3] buf)
    ∧ buf !! 1%nat = Some PrimFloat.two.
Proof.
  destruct (SparseDiag_construction 2 3 [PrimFloat.one; PrimFloat.two])
    as [_ Hok].
  destruct Hok as (buf & Hret & _ & Hval & _); [simpl; lia|].
  exists buf. split; [exact Hret|].
  exact (proj1 (Hval 1%nat PrimFloat.two eq_refl)).
Defined.

(** ** Sparse coordinate storage *)

Lemma entry_lookup (values : list (gmap Z float64)) (i j : Z) (row : gmap Z float64) :
  0 ≤ i → values !! Z.to_nat i = Some row → entry values i j = row !! j.
Proof.
  intros Hi Hrow. unfold entry.
  destruct (Z.ltb_spec i 0); [lia|]. by rewrite Hrow.
Qed.

Lemma entry_replicate_empty (n : nat) (i j : Z) :
  entry (replicate n (∅ : gmap Z float64)) i j = None.
Proof.
  unfold entry. destruct (i <? 0); [done|].
  destruct (replicate n ∅ !! Z.to_nat i) as [row|] eqn:Hrow; [|done].
  apply lookup_replicate_1 in Hrow as [-> _]. apply lookup_empty.
Qed.

Lemma Item_coo (rows cols : Z) (values : list (gmap Z float64)) (i j : Z) :
  Z.of_nat (length values) = rows → 0 ≤ i < rows → 0 ≤ j < cols →
  Item (sparseCooF64Matrix [rows; cols] values) [i; j]
  = Ret (default Go.fzero (entry values i j)).
Proof.
  intros Hlen Hi Hj. unfold Item.
  rewrite (proj2 (valid_coord_2d rows cols [i; j])) by (exists i, j; done).
  destruct (lookup_lt_is_Some_2 values (Z.to_nat i)) as [row Hrow]; [lia|].
  rewrite (proj2 (slice_get_Ret values i row)) by (split; [lia | done]).
  simpl. by rewrite (entry_lookup values i j row) by (lia || done).
Qed.

Lemma ItemSet_coo (rows cols : Z) (values : list (gmap Z float64)) (x : float64)
    (i j : Z) :
  Z.of_nat (length values) = rows → 0 ≤ i < rows → 0 ≤ j < cols →
  ∃ values',
    ItemSet (sparseCooF64Matrix [rows; cols] values) x [i; j]
    = Ret (sparseCooF64Matrix [rows; cols] values')
    ∧ length values' = length values
    ∧ entry values' i j = Some x
    ∧ (∀ i' j', ¬ (i' = i ∧ j' = j) → entry values' i' j' = entry values i' j').
Proof.
  intros Hlen Hi Hj. unfold ItemSet.
  rewrite (proj2 (valid_coord_2d rows cols [i; j])) by (exists i, j; done).
  destruct (lookup_lt_is_Some_2 values (Z.to_nat i)) as [row Hrow]; [lia|].
  rewrite (proj2 (slice_get_Ret values i row)) by (split; [lia | done]).
  simpl. rewrite slice_set_Ret by lia. simpl.
  eexists. split; [done|]. split; [by rewrite length_insert|]. split.
  - rewrite (entry_lookup _ i j (<[j:=x]> row)); [apply lookup_insert_eq | lia |].
    apply list_lookup_insert_eq. lia.
  - intros i' j' Hne. unfold entry. destruct (Z.ltb_spec i' 0); [done|].
    destruct (decide (i' = i)) as [->|Hi'].
    + rewrite list_lookup_insert_eq by lia. rewrite Hrow.
      apply lookup_insert_ne. intros ->. by apply Hne.
    + rewrite list_lookup_insert_ne by lia. done.
Qed.

Lemma literal_entry_nil (rows cols k i j : Z) :
  literal_entry rows cols k [] i j = None.
Proof. unfold literal_entry. by destruct (_ && _). Qed.

Lemma literal_entry_Some (rows cols k : Z) (array : list float64) (i j : Z)
    (v : float64) :
  literal_entry rows cols k array i j = Some v
  ↔ 0 ≤ i < rows ∧ 0 ≤ j < cols ∧ k ≤ i * cols + j
    ∧ array !! Z.to_nat (i * cols + j - k) = Some v ∧ Go.fne v Go.fzero = true.
Proof.
  unfold literal_entry.
  destruct (Z.leb_spec 0 i), (Z.ltb_spec i rows), (Z.leb_spec 0 j),
    (Z.ltb_spec j cols), (Z.leb_spec k (i * cols + j)); simpl;
    try (split; [discriminate | lia]).
  destruct (array !! Z.to_nat (i * cols + j - k)) as [w|].
  - destruct (Go.fne w Go.fzero) eqn:Hw.
    + split; [intros [= ->]; done | by intros (_ & _ & _ & [= ->] & _)].
    + split; [discriminate | intros (_ & _ & _ & [= ->] & Hv); congruence].
  - split; [discriminate | by intros (_ & _ & _ & [=] & _)].
Qed.

Lemma literal_entry_before (rows cols k : Z) (array : list float64) (i j : Z) :
  i * cols + j < k → literal_entry rows cols k array i j = None.
Proof.
  intros Hlt. unfold literal_entry.
  destruct (Z.leb_spec k (i * cols + j)); [lia|]. by rewrite andb_false_r.
Qed.

Lemma literal_entry_cons (rows cols k : Z) (v : float64) (array : list float64)
    (i j : Z) :
  literal_entry rows cols k (v :: array) i j
  = if decide (0 ≤ i < rows ∧ 0 ≤ j < cols ∧ i * cols + j = k)
    then (if Go.fne v Go.fzero then Some v else None)
    else literal_entry rows cols (k + 1) array i j.
Proof.
  unfold literal_entry.
  destruct (Z.leb_spec 0 i), (Z.ltb_spec i rows), (Z.leb_spec 0 j),
    (Z.ltb_spec j cols); simpl; try (case_decide; [lia | done]).
  destruct (Z.leb_spec k (i * cols + j)), (Z.leb_spec (k + 1) (i * cols + j));
    case_decide; try lia; try done.
  - replace (Z.to_nat (i * cols + j - k))
      with (S (Z.to_nat (i * cols + j - (k + 1)))) by lia.
    done.
  - by replace (i * cols + j - k) with 0 by lia.
Qed.

(** The loop of SparseCoo from flat position [k] on.  It returns a
    storage that keeps the entries it had and those the literal asks
    for; it panics when a nonzero literal falls beyond the last cell. *)
Lemma SparseCoo_loop (rows cols : Z) (array : list float64) :
  ∀ (k : Z) (values : list (gmap Z float64)),
    0 ≤ k → Z.of_nat (length values) = rows →
    match
      for_range
        (λ m idx val,
           if Go.fne val Go.fzero then
             do coord <- flatToNd (Shape m) idx; ItemSet m val coord
           else Ret m)
        k array (sparseCooF64Matrix [rows; cols] values)
    with
    | Ret m =>
        ∃ values',
          m = sparseCooF64Matrix [rows; cols] values'
          ∧ length values' = length values
          ∧ (∀ idx v, array !! idx = Some v → Go.fne v Go.fzero = true →
               k + Z.of_nat idx < rows * cols)
          ∧ (∀ i j, entry values' i j
                    = match literal_entry rows cols k array i j with
                      | Some v => Some v
                      | None => entry values i j
                      end)
    | Panic _ =>
        ∃ idx v, array !! idx = Some v ∧ Go.fne v Go.fzero = true
                 ∧ rows * cols ≤ k + Z.of_nat idx
    | Spin => False
    end.
Proof.
  induction array as [|v array IH]; intros k values Hk Hlen; cbn [for_range].
  - exists values. split; [done|]. split; [done|]. split; [by intros ?? [=]|].
    intros i j. by rewrite literal_entry_nil.
  - assert (0 ≤ rows) as Hrows by lia.
    destruct (Go.fne v Go.fzero) eqn:Hv; cbn [bind Shape].
    + destruct (flatToNd [rows; cols] k) as [coord| |] eqn:Hflat; cbn [bind].
      * apply flatToNd_2d_inv in Hflat
          as (i0 & j0 & -> & Hkr & Hi0 & Hj0 & Hk0); [|done].
        destruct (ItemSet_coo rows cols values v i0 j0 Hlen Hi0 Hj0)
          as (values1 & -> & Hlen1 & Hsame & Hother). cbn [bind].
        specialize (IH (k + 1) values1).
        destruct (for_range _ (k + 1) array _) as [m| |].
        -- destruct IH as (values' & -> & Hlen' & Hin & Hent); [lia | lia |].
           exists values'. split; [done|]. split; [lia|]. split.
           ++ intros [|idx] w Hw Hnz; simpl in Hw.
              ** lia.
              ** specialize (Hin idx w Hw Hnz). lia.
           ++ intros i j. rewrite Hent, literal_entry_cons, Hv.
              case_decide as Hpos.
              ** destruct Hpos as (Hi & Hj & Hpos).
                 destruct (flat_position_inj cols i j i0 j0) as [-> ->];
                   [done | done | lia |].
                 rewrite literal_entry_before by lia. done.
              ** destruct (literal_entry rows cols (k + 1) array i j); [done|].
                 apply Hother. intros [-> ->]. apply Hpos. lia.
        -- destruct IH as (idx & w & Hw & Hnz & Hout); [lia | lia |].
           exists (S idx), w. split; [done|]. split; [done | lia].
        -- apply IH; lia.
      * exists 0%nat, v. split; [done|]. split; [done|].
        unfold flatToNd in Hflat. simpl in Hflat.
        destruct (Z.leb_spec 0 k); [|lia]. simpl in Hflat.
        destruct (Z.ltb_spec k (rows * (cols * 1))); [discriminate | lia].
      * unfold flatToNd in Hflat. by destruct (_ && _).
    + specialize (IH (k + 1) values).
      destruct (for_range _ (k + 1) array _) as [m| |].
      * destruct IH as (values' & -> & Hlen' & Hin & Hent); [lia | lia |].
        exists values'. split; [done|]. split; [lia|]. split.
        -- intros [|idx] w Hw Hnz; simpl in Hw.
           ++ injection Hw as ->. congruence.
           ++ specialize (Hin idx w Hw Hnz). lia.
        -- intros i j. rewrite Hent, literal_entry_cons, Hv.
           case_decide as Hpos; [|done].
           rewrite literal_entry_before by lia. done.
      * destruct IH as (idx & w & Hw & Hnz & Hout); [lia | lia |].
        exists (S idx), w. split; [done|]. split; [done | lia].
      * apply IH; lia.
Qed.

Lemma SparseCoo_spec (rows cols : Z) (array : list float64) :
  match SparseCoo rows cols array with
  | Ret m =>
      0 ≤ rows
      ∧ ∃ values,
          m = sparseCooF64Matrix [rows; cols] values
          ∧ Z.of_nat (length values) = rows
          ∧ (∀ idx v, array !! idx = Some v → Go.fne v Go.fzero = true →
               Z.of_nat idx < rows * cols)
          ∧ (∀ i j, entry values i j = literal_entry rows cols 0 array i j)
  | Panic _ =>
      rows < 0
      ∨ ∃ idx v, array !! idx = Some v ∧ Go.fne v Go.fzero = true
                 ∧ rows * cols ≤ Z.of_nat idx
  | Spin => False
  end.
Proof.
  unfold SparseCoo, make. destruct (Z.ltb_spec rows 0) as [Hneg|Hrows]; cbn [bind].
  { by left. }
  pose proof (SparseCoo_loop rows cols array 0
                (replicate (Z.to_nat rows) (∅ : gmap Z float64))) as Hloop.
  rewrite length_replicate in Hloop.
  destruct (for_range _ 0 array _) as [m| |].
  - destruct Hloop as (values & -> & Hlen & Hin & Hent); [lia | lia |].
    split; [done|]. exists values. split; [done|]. split; [lia|]. split.
    + intros idx v Hv Hnz. specialize (Hin idx v Hv Hnz). lia.
    + intros i j. rewrite Hent, entry_replicate_empty.
      by destruct (literal_entry rows cols 0 array i j).
  - right. destruct Hloop as (idx & v & ? & ? & ?); [lia | lia |].
    exists idx, v. split; [done|]. split; [done | lia].
  - apply Hloop; lia.
Qed.

Lemma SparseCoo_total (rows cols : Z) (array : list float64) :
  0 ≤ rows → Z.of_nat (length array) ≤ rows * cols →
  ∃ values,
    SparseCoo rows cols array = Ret (sparseCooF64Matrix [rows; cols] values)
    ∧ Z.of_nat (length values) = rows
    ∧ (∀ i j, entry values i j = literal_entry rows cols 0 array i j).
Proof.
  intros Hrows Hlen. pose proof (SparseCoo_spec rows cols array) as Hspec.
  destruct (SparseCoo rows cols array) as [m|why|].
  - destruct Hspec as (_ & values & -> & ? & _ & ?). by exists values.
  - destruct Hspec as [? | (idx & v & Hv & _ & Hout)]; [lia|].
    apply lookup_lt_Some in Hv. lia.
  - done.
Qed.

(** C9: SparseCoo(rows, cols, array...) returns whenever the literal is
    no longer than the matrix, and whenever it returns, the storage it
    built keeps the value of every nonzero literal position at the
    coordinate flatToNd gives for that position, keeps no entry at the
    coordinate of a zero-valued position, and keeps nothing else: every
    entry is a nonzero literal stored at the coordinate of its index. *)
Theorem SparseCoo_literal (rows cols : Z) (array : list float64) :
  (0 ≤ rows → Z.of_nat (length array) ≤ rows * cols →
   ∃ m, SparseCoo rows cols array = Ret m)
  ∧ (∀ m, SparseCoo rows cols array = Ret m →
     ∃ values,
       m = sparseCooF64Matrix [rows; cols] values
       ∧ (∀ idx v, array !! idx = Some v → Go.fne v Go.fzero = true →
            ∃ i j, flatToNd [rows; cols] (Z.of_nat idx) = Ret [i; j]
                   ∧ entry values i j = Some v)
       ∧ (∀ idx v i j, array !! idx = Some v → Go.fne v Go.fzero = false →
            flatToNd [rows; cols] (Z.of_nat idx) = Ret [i; j] →
            entry values i j = None)
       ∧ (∀ i j v, entry values i j = Some v →
            ∃ idx, flatToNd [rows; cols] (Z.of_nat idx) = Ret [i; j]
                   ∧ array !! idx = Some v ∧ Go.fne v Go.fzero = true)).
Proof.
  split.
  - intros Hrows Hlen.
    destruct (SparseCoo_total rows cols array Hrows Hlen) as (values & -> & _).
    by eexists.
  - intros m Hm. pose proof (SparseCoo_spec rows cols array) as Hspec.
    rewrite Hm in Hspec. destruct Hspec as (Hrows & values & -> & Hlen & Hin & Hent).
    exists values. split; [done|]. split; [|split].
    + intros idx v Hv Hnz. specialize (Hin idx v Hv Hnz).
      destruct (flatToNd_2d rows cols (Z.of_nat idx))
        as (i & j & Hflat & Hi & Hj & Hidx); [done | nia | lia |].
      exists i, j. split; [done|]. rewrite Hent. apply literal_entry_Some.
      do 3 (split; [lia|]). split; [|done].
      replace (i * cols + j - 0) with (Z.of_nat idx) by lia.
      by rewrite Nat2Z.id.
    + intros idx v i j Hv Hz Hflat.
      apply flatToNd_2d_inv in Hflat as (i' & j' & [= <- <-] & _ & Hi & Hj & Hidx);
        [|done].
      rewrite Hent.
      destruct (literal_entry rows cols 0 array i j) as [w|] eqn:Hlit; [|done].
      apply literal_entry_Some in Hlit as (_ & _ & _ & Hw & Hnz).
      replace (i * cols + j - 0) with (Z.of_nat idx) in Hw by lia.
      rewrite Nat2Z.id, Hv in Hw. injection Hw as ->. congruence.
    + intros i j v Hv. rewrite Hent in Hv.
      apply literal_entry_Some in Hv as (Hi & Hj & _ & Hv & Hnz).
      exists (Z.to_nat (i * cols + j - 0)). split; [|done].
      replace (Z.of_nat (Z.to_nat (i * cols + j - 0))) with (i * cols + j) by nia.
      by apply flatToNd_2d_of_coord.
Qed.

Lemma SparseCoo_literal_witness :
  ∃ values,
    SparseCoo 2 2 [PrimFloat.one; PrimFloat.zero; PrimFloat.zero; PrimFloat.two]
    = Ret (sparseCooF64Matrix [2; 2] values)
    ∧ entry values 1 1 = Some PrimFloat.two
    ∧ entry values 0 1 = None.
Proof.
  pose (array := [PrimFloat.one; PrimFloat.zero; PrimFloat.zero; PrimFloat.two]).
  destruct (SparseCoo_literal 2 2 array) as [Htotal Hkeeps].
  destruct Htotal as [m Hm]; [lia | simpl; lia |].
  destruct (Hkeeps m Hm) as (values & -> & Hnonzero & Hzero & _).
  exists values. split; [exact Hm|]. split.
  - destruct (Hnonzero 3%nat PrimFloat.two eq_refl eq_refl) as (i & j & Hflat & Hent).
    injection Hflat as <- <-. exact Hent.
  - exact (Hzero 1%nat PrimFloat.zero 0 1 eq_refl eq_refl eq_refl).
Defined.

(** C10: a literal shorter than the matrix is accepted.  With a row
    count that is not negative and at most rows*cols literal values
    SparseCoo returns a matrix of the shape asked for, and every cell
    whose flat position is at or after the end of the literal reads
    zero. *)
Theorem SparseCoo_short_literal (rows cols : Z) (array : list float64) :
  0 ≤ rows → Z.of_nat (length array) ≤ rows * cols →
  ∃ m, SparseCoo rows cols array = Ret m
       ∧ Shape m = [rows; cols]
       ∧ (∀ flat, Z.of_nat (length array) ≤ flat < rows * cols →
            cell m flat = Ret Go.fzero).
Proof.
  intros Hrows Hlen.
  destruct (SparseCoo_total rows cols array Hrows Hlen) as (values & -> & Hvals & Hent).
  eexists. split; [done|]. split; [done|].
  intros flat Hflat. unfold cell. cbn [Shape].
  destruct (flatToNd_2d rows cols flat) as (i & j & -> & Hi & Hj & Hpos);
    [done | nia | lia |]. cbn [bind].
  rewrite Item_coo by done. rewrite Hent.
  destruct (literal_entry rows cols 0 array i j) as [w|] eqn:Hlit; [|done].
  apply literal_entry_Some in Hlit as (_ & _ & _ & Hw & _).
  apply lookup_lt_Some in Hw. lia.
Qed.

Lemma SparseCoo_short_literal_witness :
  ∃ m, SparseCoo 2 3 [PrimFloat.one; PrimFloat.two] = Ret m
       ∧ cell m 4 = Ret Go.fzero.
Proof.
  destruct (SparseCoo_short_literal 2 3 [PrimFloat.one; PrimFloat.two])
    as (m & Hm & _ & Hzero); [lia | simpl; lia |].
  exists m. split; [exact Hm|]. apply Hzero. simpl. lia.
Defined.

(** ** Counting loops *)

(** A counting loop whose every turn returns and keeps an invariant
    returns, with the invariant at the bound. *)
Lemma for_each_upto_total {S : Type} (body : S → Z → outcome S)
    (P : Z → S → Prop) (n : Z) (st0 : S) :
  0 ≤ n → P 0 st0 →
  (∀ k st, 0 ≤ k < n → P k st → ∃ st', body st k = Ret st' ∧ P (k + 1) st') →
  ∃ st', for_each body (upto n) st0 = Ret st' ∧ P n st'.
Proof.
  intros Hn H0. revert n Hn.
  apply (natlike_ind (λ n,
    (∀ k st, 0 ≤ k < n → P k st → ∃ st', body st k = Ret st' ∧ P (k + 1) st') →
    ∃ st', for_each body (upto n) st0 = Ret st' ∧ P n st')).
  - intros _. exists st0. by rewrite upto_nonpos.
  - intros n Hn IH Hstep.
    destruct IH as (st & Hloop & Hst); [intros k st Hk; apply Hstep; lia|].
    destruct (Hstep n st) as (st' & Hbody & Hst'); [lia | done |].
    exists st'. rewrite upto_succ, for_each_app, Hloop by done. simpl.
    rewrite Hbody. simpl. split; [done|].
    by replace (Z.succ n) with (n + 1) by lia.
Qed.

(** A counting loop whose turns keep an invariant when they return, and
    otherwise panic, ends in one of these two ways. *)
Lemma for_each_upto_partial {S : Type} (body : S → Z → outcome S)
    (P : Z → S → Prop) (n : Z) (st0 : S) :
  0 ≤ n → P 0 st0 →
  (∀ k st, 0 ≤ k < n → P k st →
     match body st k with
     | Ret st' => P (k + 1) st'
     | Panic _ => True
     | Spin => False
     end) →
  match for_each body (upto n) st0 with
  | Ret st' => P n st'
  | Panic _ => True
  | Spin => False
  end.
Proof.
  intros Hn H0. revert n Hn.
  apply (natlike_ind (λ n,
    (∀ k st, 0 ≤ k < n → P k st →
       match body st k with
       | Ret st' => P (k + 1) st'
       | Panic _ => True
       | Spin => False
       end) →
    match for_each body (upto n) st0 with
    | Ret st' => P n st'
    | Panic _ => True
    | Spin => False
    end)).
  - intros _. by rewrite upto_nonpos.
  - intros n Hn IH Hstep.
    rewrite upto_succ, for_each_app by done.
    assert (∀ k st, 0 ≤ k < n → P k st →
              match body st k with
              | Ret st' => P (k + 1) st'
              | Panic _ => True
              | Spin => False
              end) as Hstep' by (intros k st Hk; apply Hstep; lia).
    specialize (IH Hstep').
    destruct (for_each body (upto n) st0) as [st| |]; simpl; [|done|done].
    specialize (Hstep n st).
    destruct (body st n) as [st'| |]; simpl.
    + replace (Z.succ n) with (n + 1) by lia. apply Hstep; [lia | done].
    + done.
    + apply Hstep; [lia | done].
Qed.

Lemma collect_Ret {A B : Type} (f : A → outcome B) (l : list A) :
  (∀ x, x ∈ l → ∃ y, f x = Ret y) →
  ∃ ys, collect f l = Ret ys
        ∧ length ys = length l
        ∧ (∀ k x, l !! k = Some x → ∃ y, ys !! k = Some y ∧ f x = Ret y).
Proof.
  induction l as [|x l IH]; intros Hf; simpl.
  - exists []. split; [done|]. split; [done|]. by intros ?? [=].
  - destruct (Hf x) as [y Hy]; [by left|].
    destruct IH as (ys & Hys & Hlen & Hnth); [intros z Hz; apply Hf; by right|].
    exists (y :: ys). rewrite Hy, Hys. simpl. split; [done|].
    split; [by rewrite Hlen|].
    intros [|k] z Hz; simpl in *.
    + injection Hz as <-. by exists y.
    + by apply Hnth.
Qed.

(** ** Dense and sparse diagonal storage *)

Lemma ndToFlat_2d (rows cols i j : Z) :
  0 ≤ i < rows → 0 ≤ j < cols →
  ndToFlat [rows; cols] [i; j] = Ret (i * cols + j).
Proof.
  intros Hi Hj. unfold ndToFlat.
  rewrite (proj2 (valid_coord_2d rows cols [i; j])) by (exists i, j; done).
  cbn [ravel]. f_equal; lia.
Qed.

Lemma Item_dense (rows cols : Z) (array : list float64) (i j : Z) :
  0 ≤ i < rows → 0 ≤ j < cols →
  Item (denseF64Array [rows; cols] array) [i; j] = slice_get array (i * cols + j).
Proof. intros Hi Hj. unfold Item. by rewrite ndToFlat_2d. Qed.

Lemma ItemSet_dense (rows cols : Z) (array : list float64) (x : float64) (i j : Z) :
  0 ≤ i < rows → 0 ≤ j < cols → Z.of_nat (length array) = rows * cols →
  ItemSet (denseF64Array [rows; cols] array) x [i; j]
  = Ret (denseF64Array [rows; cols] (<[Z.to_nat (i * cols + j) := x]> array)).
Proof.
  intros Hi Hj Hlen. unfold ItemSet. rewrite ndToFlat_2d by done. cbn [bind].
  rewrite slice_set_Ret by nia. done.
Qed.

Lemma Item_diag (rows cols : Z) (diag : list float64) (i j : Z) :
  0 ≤ i < rows → 0 ≤ j < cols →
  Item (sparseDiagF64Matrix [rows; cols] diag) [i; j]
  = if i =? j then slice_get diag i else Ret Go.fzero.
Proof.
  intros Hi Hj. unfold Item.
  by rewrite (proj2 (valid_coord_2d rows cols [i; j])) by (exists i, j; done).
Qed.

Lemma ItemSet_diag (rows cols : Z) (diag : list float64) (x : float64) (i : Z) :
  0 ≤ i < rows → 0 ≤ i < cols → Z.of_nat (length diag) = Z.min rows cols →
  ItemSet (sparseDiagF64Matrix [rows; cols] diag) x [i; i]
  = Ret (sparseDiagF64Matrix [rows; cols] (<[Z.to_nat i := x]> diag)).
Proof.
  intros Hi Hj Hlen. unfold ItemSet.
  rewrite (proj2 (valid_coord_2d rows cols [i; i])) by (exists i, i; done).
  rewrite Z.eqb_refl, slice_set_Ret by lia. done.
Qed.

Lemma slice_get_lookup {A : Type} (s : list A) (i : Z) :
  0 ≤ i < Z.of_nat (length s) →
  ∃ v, slice_get s i = Ret v ∧ s !! Z.to_nat i = Some v.
Proof.
  intros Hi. destruct (lookup_lt_is_Some_2 s (Z.to_nat i)) as [v Hv]; [lia|].
  exists v. split; [|done]. apply slice_get_Ret. split; [lia | done].
Qed.

(** Every cell of a well-formed matrix can be read. *)
Lemma Item_wf (m : Matrix) (rows cols i j : Z) :
  wf m → Shape m = [rows; cols] → 0 ≤ i < rows → 0 ≤ j < cols →
  ∃ v, Item m [i; j] = Ret v.
Proof.
  intros Hwf Hshape Hi Hj.
  destruct m as [shape array | shape values | shape diag];
    destruct Hwf as (r & c & -> & (Hr & Hc & Hfit) & Hlen);
    injection Hshape as -> ->.
  - rewrite Item_dense by done.
    destruct (slice_get_lookup array (i * cols + j)) as (v & Hv & _); [nia|].
    by exists v.
  - rewrite Item_coo by done. by eexists.
  - rewrite Item_diag by done. destruct (Z.eqb_spec i j) as [->|Hne].
    + destruct (slice_get_lookup diag j) as (v & Hv & _); [lia|]. by exists v.
    + by eexists.
Qed.

Lemma wf_Shape (m : Matrix) :
  wf m → ∃ rows cols, Shape m = [rows; cols] ∧ wf_shape rows cols.
Proof.
  destruct m; intros (r & c & -> & Hshape & _); by exists r, c.
Qed.

Lemma cell_Item (m : Matrix) (rows cols i j : Z) :
  Shape m = [rows; cols] → 0 ≤ i < rows → 0 ≤ j < cols →
  cell m (i * cols + j) = Item m [i; j].
Proof.
  intros Hshape Hi Hj. unfold cell.
  by rewrite Hshape, flatToNd_2d_of_coord.
Qed.

Lemma wrap_small (z : Z) : Go.min_int ≤ z ≤ Go.max_int → Go.wrap z = z.
Proof.
  unfold Go.min_int, Go.max_int, Go.wrap. intros Hz.
  rewrite Z.mod_small; lia.
Qed.

Lemma mul_wf (rows cols : Z) : wf_shape rows cols → Go.mul rows cols = rows * cols.
Proof.
  intros (Hr & Hc & Hfit). unfold Go.mul. apply wrap_small.
  unfold Go.min_int. split; [|done]. nia.
Qed.

(** ** The backend bridge *)

Lemma Array_wf (m : Matrix) (rows cols : Z) :
  wf m → Shape m = [rows; cols] →
  ∃ data, Array m = Ret data
          ∧ Z.of_nat (length data) = rows * cols
          ∧ (∀ i j, 0 ≤ i < rows → 0 ≤ j < cols →
               ∃ v, Item m [i; j] = Ret v
                    ∧ data !! Z.to_nat (i * cols + j) = Some v).
Proof.
  intros Hwf Hshape.
  assert (wf_shape rows cols) as (Hr & Hc & Hfit).
  { destruct (wf_Shape m Hwf) as (r & c & Hs & ?). congruence. }
  assert (∃ data, collect (cell m) (upto (product (Shape m))) = Ret data
            ∧ Z.of_nat (length data) = rows * cols
            ∧ (∀ i j, 0 ≤ i < rows → 0 ≤ j < cols →
                 ∃ v, Item m [i; j] = Ret v
                      ∧ data !! Z.to_nat (i * cols + j) = Some v)) as Hcollect.
  { destruct (collect_Ret (cell m) (upto (product (Shape m))))
      as (data & Hdata & Hlen & Hnth).
    - intros flat [Hf0 Hf1]%elem_of_upto. rewrite Hshape in Hf1. simpl in Hf1.
      destruct (flatToNd_2d rows cols flat) as (i & j & _ & Hi & Hj & ->);
        [done | done | lia |].
      rewrite (cell_Item m rows cols) by done. by apply (Item_wf m rows cols).
    - exists data. split; [done|]. rewrite Hshape in Hlen, Hnth. simpl in Hlen, Hnth.
      unfold upto in Hlen, Hnth. rewrite length_seqZ in Hlen.
      split; [lia|]. intros i j Hi Hj.
      destruct (Hnth (Z.to_nat (i * cols + j)) (i * cols + j)) as (v & Hv & Hcell).
      { apply lookup_seqZ. split; [lia | nia]. }
      exists v. split; [|done]. by rewrite <- (cell_Item m rows cols). }
  destruct m as [shape array | shape values | shape diag]; [|done|done].
  destruct Hwf as (r & c & -> & _ & Hlen). injection Hshape as -> ->.
  exists array. split; [done|]. split; [done|]. intros i j Hi Hj.
  rewrite Item_dense by done.
  destruct (slice_get_lookup array (i * cols + j)) as (v & Hv & Hv'); [nia|].
  by exists v.
Qed.

Lemma ToMat64_wf (m : Matrix) (rows cols : Z) :
  wf m → Shape m = [rows; cols] →
  ∃ data, ToMat64 m = Ret (mkDense rows cols data)
          ∧ Z.of_nat (length data) = rows * cols
          ∧ (∀ i j, 0 ≤ i < rows → 0 ≤ j < cols →
               ∃ v, Item m [i; j] = Ret v
                    ∧ data !! Z.to_nat (i * cols + j) = Some v).
Proof.
  intros Hwf Hshape.
  destruct (Array_wf m rows cols Hwf Hshape) as (data & Hdata & Hlen & Hitems).
  assert (wf_shape rows cols) as Hfit.
  { destruct (wf_Shape m Hwf) as (r & c & Hs & ?). congruence. }
  exists data. split; [|done].
  unfold ToMat64, Rows, Cols. rewrite Hshape, Hdata.
  assert (slice_get [rows; cols] 0 = Ret rows) as -> by done.
  assert (slice_get [rows; cols] 1 = Ret cols) as -> by done.
  cbn [bind]. unfold NewDense. rewrite mul_wf by done.
  by rewrite (proj2 (Z.eqb_eq _ _)) by lia.
Qed.

Lemma ToMatrix_Ret (rows cols : Z) (data : list float64) :
  wf_shape rows cols → Z.of_nat (length data) = rows * cols →
  ToMatrix (mkDense rows cols data) = Ret (denseF64Array [rows; cols] data).
Proof.
  intros Hfit Hlen. pose proof Hfit as (Hr & Hc & _).
  unfold ToMatrix, Dims. cbn [mat_rows mat_cols].
  rewrite mul_wf, make_Ret by (done || nia). cbn [bind].
  pose (P := λ (bound : Z) (st : Matrix),
          ∃ buf, st = denseF64Array [rows; cols] buf
                 ∧ Z.of_nat (length buf) = rows * cols
                 ∧ ∀ p : nat, Z.of_nat p < bound → buf !! p = data !! p).
  match goal with
  | |- for_each ?body (upto rows) ?st0 = _ =>
      destruct (for_each_upto_total body (λ i0, P (i0 * cols)) rows st0)
        as (st' & -> & buf & -> & Hbuf & Hsame)
  end; [done | | |].
  - eexists. split; [done|]. split; [rewrite length_replicate; nia|].
    intros p Hp. lia.
  - intros i0 st Hi0 Hst.
    destruct (for_each_upto_total
                (λ array i1,
                   do v <- At (mkDense rows cols data) i0 i1;
                   ItemSet array v [i0; i1])
                (λ i1, P (i0 * cols + i1)) cols st)
      as (st' & Hloop & Hst'); [done | by rewrite Z.add_0_r | |].
    + intros i1 st1 Hi1 (buf & -> & Hbuf & Hsame).
      unfold At. cbn [mat_rows mat_cols mat_data].
      destruct (Z.leb_spec 0 i0), (Z.ltb_spec i0 rows),
        (Z.leb_spec 0 i1), (Z.ltb_spec i1 cols); try lia. cbn [andb].
      destruct (slice_get_lookup data (i0 * cols + i1)) as (v & -> & Hv); [nia|].
      cbn [bind]. rewrite ItemSet_dense by done.
      eexists. split; [done|]. eexists. split; [done|].
      split; [by rewrite length_insert|]. intros p Hp.
      destruct (decide (p = Z.to_nat (i0 * cols + i1))) as [->|Hne].
      * rewrite list_lookup_insert_eq by nia. done.
      * rewrite list_lookup_insert_ne by done. apply Hsame. lia.
    + exists st'. split; [done|].
      by replace ((i0 + 1) * cols) with (i0 * cols + cols) by lia.
  - f_equal. f_equal. apply list_eq. intros p.
    destruct (decide (Z.of_nat p < rows * cols)) as [Hp|Hp]; [by apply Hsame|].
    rewrite !lookup_ge_None_2 by lia. done.
Qed.

(** C8: for a well-formed matrix of any of the three kinds ToMat64
    returns, ToMatrix returns on its result, and the matrix that comes
    back is dense, has the row and the column count of the original, and
    holds at every coordinate the value the original holds there. *)
Theorem ToMatrix_ToMat64 (m : Matrix) :
  wf m →
  ∃ A rows cols array,
    ToMat64 m = Ret A
    ∧ ToMatrix A = Ret (denseF64Array [rows; cols] array)
    ∧ Rows m = Ret rows ∧ Cols m = Ret cols
    ∧ Rows (denseF64Array [rows; cols] array) = Ret rows
    ∧ Cols (denseF64Array [rows; cols] array) = Ret cols
    ∧ (∀ i j, 0 ≤ i < rows → 0 ≤ j < cols →
         ∃ v, Item m [i; j] = Ret v
              ∧ Item (denseF64Array [rows; cols] array) [i; j] = Ret v).
Proof.
  intros Hwf. destruct (wf_Shape m Hwf) as (rows & cols & Hshape & Hfit).
  destruct (ToMat64_wf m rows cols Hwf Hshape) as (data & HA & Hlen & Hitems).
  exists (mkDense rows cols data), rows, cols, data.
  split; [done|]. split; [by apply ToMatrix_Ret|].
  unfold Rows, Cols. rewrite Hshape. do 4 (split; [done|]).
  intros i j Hi Hj. destruct (Hitems i j Hi Hj) as (v & Hv & Hdata).
  exists v. split; [done|]. rewrite Item_dense by done.
  apply slice_get_Ret. split; [nia | done].
Qed.

Lemma ToMatrix_ToMat64_witness :
  ∃ A rows cols array,
    ToMat64 (sparseDiagF64Matrix [2; 3] [PrimFloat.one; PrimFloat.two]) = Ret A
    ∧ ToMatrix A = Ret (denseF64Array [rows; cols] array)
    ∧ rows = 2 ∧ cols = 3.
Proof.
  pose (m := sparseDiagF64Matrix [2; 3] [PrimFloat.one; PrimFloat.two]).
  assert (wf m) as Hwf.
  { exists 2, 3. split; [reflexivity|]. split; [|reflexivity].
    unfold wf_shape, Go.max_int. lia. }
  destruct (ToMatrix_ToMat64 m Hwf)
    as (A & rows & cols & array & HA & Hback & Hrows & Hcols & _).
  exists A, rows, cols, array. split; [exact HA|]. split; [exact Hback|].
  injection Hrows as <-. injection Hcols as <-. split; reflexivity.
Defined.

Lemma WithValue_M (value : float64) (rows cols : Z) :
  0 ≤ rows → 0 ≤ cols →
  (do x <- WithValue value [rows; cols]; M x)
  = Ret (denseF64Array [rows; cols] (replicate (Z.to_nat (rows * cols)) value)).
Proof.
  intros Hr Hc. unfold WithValue. rewrite make_Ret by (simpl; nia).
  cbn [bind product foldr]. unfold M. cbn [Shape length Nat.eqb].
  by rewrite Z.mul_1_r.
Qed.

Section BridgeFacts.
Context `{backend : Backend}.

(** C1: for well-formed a and b both conversions to the backend return,
    and whenever the backend's solve on them comes back with an error,
    LDivide and Solve return (they neither panic nor report the error) a
    dense matrix with the row count of a and the column count of b whose
    every cell is NaN. *)
Theorem LDivide_singular (a b : Matrix) :
  wf a → wf b →
  ∃ A B rows cols,
    ToMat64 a = Ret A ∧ ToMat64 b = Ret B
    ∧ Rows a = Ret rows ∧ Cols b = Ret cols
    ∧ ∀ x err, mat64_Solve A B = Ret (x, Some err) →
        ∃ array,
          LDivide a b = Ret (denseF64Array [rows; cols] array)
          ∧ Solve a b = Ret (denseF64Array [rows; cols] array)
          ∧ Z.of_nat (length array) = rows * cols
          ∧ (∀ i j, 0 ≤ i < rows → 0 ≤ j < cols →
               Item (denseF64Array [rows; cols] array) [i; j] = Ret Go.NaN)
          ∧ Go.IsNaN Go.NaN = true.
Proof.
  intros Hwfa Hwfb.
  destruct (wf_Shape a Hwfa) as (ra & ca & Hsa & (Hra & Hca & _)).
  destruct (wf_Shape b Hwfb) as (rb & cb & Hsb & (Hrb & Hcb & _)).
  destruct (ToMat64_wf a ra ca Hwfa Hsa) as (da & HA & _).
  destruct (ToMat64_wf b rb cb Hwfb Hsb) as (db & HB & _).
  exists (mkDense ra ca da), (mkDense rb cb db), ra, cb.
  split; [done|]. split; [done|].
  unfold Rows, Cols. rewrite Hsa, Hsb. split; [done|]. split; [done|].
  intros x err Hsolve.
  exists (replicate (Z.to_nat (ra * cb)) Go.NaN).
  assert (LDivide a b
          = Ret (denseF64Array [ra; cb] (replicate (Z.to_nat (ra * cb)) Go.NaN)))
    as HL.
  { unfold LDivide. rewrite HA, HB. cbn [bind]. rewrite Hsolve. cbn [bind snd].
    rewrite Hsa, Hsb.
    assert (slice_get [ra; ca] 0 = Ret ra) as -> by done.
    assert (slice_get [rb; cb] 1 = Ret cb) as -> by done.
    cbn [bind]. by apply WithValue_M. }
  split; [done|]. split; [done|].
  split; [rewrite length_replicate; nia|]. split; [|done].
  intros i j Hi Hj. rewrite Item_dense by done.
  apply slice_get_Ret. split; [nia|]. apply lookup_replicate_2. nia.
Qed.

(** C2: for a well-formed a the conversion to the backend returns, and
    whenever the backend's inversion comes back with an error, Inverse
    returns that error and no matrix; it does not panic. *)
Theorem Inverse_singular (a : Matrix) :
  wf a →
  ∃ A, ToMat64 a = Ret A
       ∧ ∀ inv err, mat64_Inverse A = Ret (inv, Some err) →
           Inverse a = Ret (None, Some err).
Proof.
  intros Hwf. destruct (wf_Shape a Hwf) as (rows & cols & Hshape & _).
  destruct (ToMat64_wf a rows cols Hwf Hshape) as (data & HA & _).
  eexists. split; [done|]. intros inv err Hinv.
  unfold Inverse. rewrite HA. cbn [bind]. rewrite Hinv. done.
Qed.

End BridgeFacts.

(** The singular system of the tests: every entry of a is one. *)
Lemma wf_ones :
  wf (denseF64Array [2; 2]
        [PrimFloat.one; PrimFloat.one; PrimFloat.one; PrimFloat.one]).
Proof.
  exists 2, 2. split; [reflexivity|]. split; [|reflexivity].
  unfold wf_shape, Go.max_int. lia.
Defined.

Lemma wf_column :
  wf (denseF64Array [2; 1] [PrimFloat.one; PrimFloat.two]).
Proof.
  exists 2, 1. split; [reflexivity|]. split; [|reflexivity].
  unfold wf_shape, Go.max_int. lia.
Defined.

Lemma LDivide_singular_witness :
  ∃ array,
    LDivide (backend := closed_form_backend)
      (denseF64Array [2; 2]
         [PrimFloat.one; PrimFloat.one; PrimFloat.one; PrimFloat.one])
      (denseF64Array [2; 1] [PrimFloat.one; PrimFloat.two])
    = Ret (denseF64Array [2; 1] array)
    ∧ array !! 1%nat = Some Go.NaN.
Proof.
  destruct (LDivide_singular (backend := closed_form_backend) _ _ wf_ones wf_column)
    as (A & B & rows & cols & HA & HB & Hrows & Hcols & Hsolve).
  injection HA as <-. injection HB as <-.
  injection Hrows as <-. injection Hcols as <-.
  destruct (Hsolve (mkDense 0 0 []) ErrSingular eq_refl)
    as (array & HL & _ & _ & Hcells & _).
  exists array. split; [exact HL|].
  specialize (Hcells 1 0). rewrite Item_dense in Hcells by lia.
  apply slice_get_Ret in Hcells; [|lia | lia]. exact (proj2 Hcells).
Defined.

Lemma Inverse_singular_witness :
  Inverse (backend := closed_form_backend)
    (denseF64Array [2; 2]
       [PrimFloat.one; PrimFloat.one; PrimFloat.one; PrimFloat.one])
  = Ret (None, Some ErrSingular).
Proof.
  destruct (Inverse_singular (backend := closed_form_backend) _ wf_ones)
    as (A & HA & Hinv).
  injection HA as <-. exact (Hinv (mkDense 0 0 []) ErrSingular eq_refl).
Defined.

(** ** The conversion to sparse diagonal format *)

Lemma Matrix_SparseDiag_unfold (m : Matrix) (rows cols : Z) :
  Shape m = [rows; cols] → 0 ≤ rows → 0 ≤ cols →
  Matrix_SparseDiag m
  = for_each
      (λ target flat,
         do coord <- flatToNd [rows; cols] flat;
         do v <- Item m coord;
         match coord with
         | [i; j] =>
             if i =? j then ItemSet target v coord
             else if Go.fne v Go.fzero then Panic OffDiagonalWrite
             else Ret target
         | _ => Panic BadIndex
         end)
      (upto (rows * cols))
      (sparseDiagF64Matrix [rows; cols]
         (replicate (Z.to_nat (Z.min rows cols)) Go.fzero)).
Proof.
  intros Hshape Hr Hc. unfold Matrix_SparseDiag, Rows, Cols. rewrite Hshape.
  assert (slice_get [rows; cols] 0 = Ret rows) as -> by done.
  assert (slice_get [rows; cols] 1 = Ret cols) as -> by done.
  cbn [bind]. rewrite SparseDiag_Ret by (simpl; lia). cbn [bind length app].
  rewrite Nat.sub_0_r. cbn [product foldr]. by rewrite Z.mul_1_r.
Qed.

(** C5: on a well-formed matrix whose off-diagonal cells all compare
    equal to zero, the SparseDiag() conversion returns a sparse diagonal
    matrix of the same shape whose main diagonal holds the values of the
    original's; on a well-formed matrix with an off-diagonal cell that
    does not compare equal to zero it panics. *)
Theorem Matrix_SparseDiag_conversion (m : Matrix) (rows cols : Z) :
  wf m → Shape m = [rows; cols] →
  ((∀ i j v, 0 ≤ i < rows → 0 ≤ j < cols → i ≠ j →
      Item m [i; j] = Ret v → Go.feq v Go.fzero = true) →
   ∃ diag,
     Matrix_SparseDiag m = Ret (sparseDiagF64Matrix [rows; cols] diag)
     ∧ Z.of_nat (length diag) = Z.min rows cols
     ∧ ∀ k, 0 ≤ k < Z.min rows cols →
         ∃ v, Item m [k; k] = Ret v
              ∧ Item (sparseDiagF64Matrix [rows; cols] diag) [k; k] = Ret v)
  ∧ ((∃ i j v, 0 ≤ i < rows ∧ 0 ≤ j < cols ∧ i ≠ j
               ∧ Item m [i; j] = Ret v ∧ Go.fne v Go.fzero = true) →
     panics (Matrix_SparseDiag m)).
Proof.
  intros Hwf Hshape.
  assert (wf_shape rows cols) as (Hr & Hc & Hfit).
  { destruct (wf_Shape m Hwf) as (r & c & Hs & ?). congruence. }
  rewrite (Matrix_SparseDiag_unfold m rows cols) by done.
  split.
  - intros Hoff.
    pose (P := λ (k : Z) (st : Matrix),
            ∃ diag, st = sparseDiagF64Matrix [rows; cols] diag
                    ∧ Z.of_nat (length diag) = Z.min rows cols
                    ∧ ∀ d, 0 ≤ d < Z.min rows cols → d * cols + d < k →
                        ∃ v, Item m [d; d] = Ret v
                             ∧ diag !! Z.to_nat d = Some v).
    match goal with
    | |- ∃ diag, for_each ?body (upto ?n) ?st0 = _ ∧ _ =>
        destruct (for_each_upto_total body P n st0)
          as (st' & -> & diag & -> & Hlen & Hdiag)
    end; [nia | | |].
    + eexists. split; [done|]. split; [rewrite length_replicate; lia|].
      intros d Hd Hlt. nia.
    + intros k st Hk (diag & -> & Hlen & Hdiag).
      destruct (flatToNd_2d rows cols k) as (i & j & -> & Hi & Hj & ->);
        [done | done | done |].
      cbn [bind].
      destruct (Item_wf m rows cols i j Hwf Hshape Hi Hj) as [v Hv].
      rewrite Hv. cbn [bind]. destruct (Z.eqb_spec i j) as [<-|Hne].
      * rewrite ItemSet_diag by (done || lia).
        eexists. split; [done|]. eexists. split; [done|].
        split; [by rewrite length_insert|]. intros d Hd Hlt.
        destruct (decide (d = i)) as [->|Hdi].
        -- exists v. split; [done|]. apply list_lookup_insert_eq. lia.
        -- rewrite list_lookup_insert_ne by lia. apply Hdiag; [done|].
           assert (d * cols + d ≠ i * cols + i); [|lia].
           intros Heq. apply Hdi.
           by apply (flat_position_inj cols d d i i); [lia | lia |].
      * assert (Go.fne v Go.fzero = false) as ->.
        { pose proof (Hoff i j v Hi Hj Hne Hv) as Hz.
          unfold Go.fne. unfold Go.feq in Hz. by rewrite Hz. }
        eexists. split; [done|]. exists diag. split; [done|]. split; [done|].
        intros d Hd Hlt. apply Hdiag; [done|].
        assert (d * cols + d ≠ i * cols + j); [|lia].
        intros Heq. apply Hne.
        destruct (flat_position_inj cols d d i j) as [<- <-]; [lia | lia | done | done].
    + exists diag. split; [done|]. split; [done|]. intros k Hk.
      destruct (Hdiag k Hk) as (v & Hv & Hlook); [nia|].
      exists v. split; [done|]. rewrite Item_diag, Z.eqb_refl by lia.
      apply slice_get_Ret. split; [lia | done].
  - intros (i0 & j0 & v0 & Hi0 & Hj0 & Hne0 & Hv0 & Hnz0).
    pose (P := λ (k : Z) (st : Matrix),
            (∃ diag, st = sparseDiagF64Matrix [rows; cols] diag
                     ∧ Z.of_nat (length diag) = Z.min rows cols)
            ∧ ∀ i j v, 0 ≤ i < rows → 0 ≤ j < cols → i ≠ j →
                i * cols + j < k → Item m [i; j] = Ret v →
                Go.fne v Go.fzero = false).
    match goal with
    | |- panics (for_each ?body (upto ?n) ?st0) =>
        pose proof (for_each_upto_partial body P n st0) as Hloop
    end.
    cbv beta in Hloop.
    assert (0 ≤ rows * cols) as Hn by nia.
    specialize (Hloop Hn). clear Hn.
    match type of Hloop with
    | ?H0 → ?Hstep → _ => assert H0 as Hinit; [|assert Hstep as Hturn]
    end.
    + split; [|intros; nia]. eexists. split; [done|].
      rewrite length_replicate. lia.
    + intros k st Hk [(diag & -> & Hlen) Hzero].
      destruct (flatToNd_2d rows cols k) as (i & j & -> & Hi & Hj & ->);
        [done | done | done |].
      cbn [bind].
      destruct (Item_wf m rows cols i j Hwf Hshape Hi Hj) as [v Hv].
      rewrite Hv. cbn [bind]. destruct (Z.eqb_spec i j) as [<-|Hne].
      * rewrite ItemSet_diag by (done || lia).
        split; [eexists; split; [done|]; by rewrite length_insert|].
        intros i' j' v' Hi' Hj' Hne' Hlt Hv'.
        apply (Hzero i' j' v'); try done.
        assert (i' * cols + j' ≠ i * cols + i); [|lia].
        intros Heq. apply Hne'.
        destruct (flat_position_inj cols i' j' i i) as [-> ->]; done.
      * destruct (Go.fne v Go.fzero) eqn:Hnz; [done|].
        split; [by exists diag|].
        intros i' j' v' Hi' Hj' Hne' Hlt Hv'.
        destruct (decide (i' * cols + j' = i * cols + j)) as [Heq|Hneq].
        -- destruct (flat_position_inj cols i' j' i j) as [-> ->];
             [done | done | done |]. congruence.
        -- apply (Hzero i' j' v'); try done. lia.
    + specialize (Hloop Hinit Hturn).
      destruct (for_each _ (upto (rows * cols)) _) as [st'|why|].
      * exfalso. destruct Hloop as [_ Hzero].
        specialize (Hzero i0 j0 v0 Hi0 Hj0 Hne0).
        rewrite Hzero in Hnz0; [done | nia | done].
      * by exists why.
      * done.
Qed.

Lemma Matrix_SparseDiag_conversion_witness :
  (∃ diag,
     Matrix_SparseDiag
       (sparseCooF64Matrix [2; 2]
          [{[0 := PrimFloat.one]}; {[1 := PrimFloat.two]}])
     = Ret (sparseDiagF64Matrix [2; 2] diag)
     ∧ Item (sparseDiagF64Matrix [2; 2] diag) [1; 1] = Ret PrimFloat.two)
  ∧ panics
      (Matrix_SparseDiag
         (sparseCooF64Matrix [2; 2]
            [<[1 := PrimFloat.one]> {[0 := PrimFloat.one]};
             {[1 := PrimFloat.two]}])).
Proof.
  assert (wf_shape 2 2) as Hfit by (unfold wf_shape, Go.max_int; lia).
  split.
  - pose (m := sparseCooF64Matrix [2; 2]
                 [{[0 := PrimFloat.one]}; {[1 := PrimFloat.two]}]).
    assert (wf m) as Hwf by (exists 2, 2; done).
    destruct (Matrix_SparseDiag_conversion m 2 2 Hwf eq_refl) as [Hcopy _].
    destruct Hcopy as (diag & Hret & _ & Hdiag).
    + intros i j v Hi Hj Hne Hv.
      assert ((i = 0 ∧ j = 1) ∨ (i = 1 ∧ j = 0)) as [[-> ->]|[-> ->]] by lia;
        injection Hv as <-; reflexivity.
    + exists diag. split; [exact Hret|].
      destruct (Hdiag 1) as (v & Hv & Hcopy); [lia|].
      injection Hv as <-. exact Hcopy.
  - pose (m := sparseCooF64Matrix [2; 2]
                 [<[1 := PrimFloat.one]> {[0 := PrimFloat.one]};
                  {[1 := PrimFloat.two]}]).
    assert (wf m) as Hwf by (exists 2, 2; done).
    destruct (Matrix_SparseDiag_conversion m 2 2 Hwf eq_refl) as [_ Hpanic].
    apply Hpanic. exists 0, 1, PrimFloat.one.
    split; [lia|]. split; [lia|]. split; [lia|]. split; reflexivity.
Defined.

(** ** The density check *)

Lemma bad_density_spec (density : float64) :
  bad_density density = true
  ↔ Go.flt density Go.fzero = true ∨ Go.fge density Go.fone = true.
Proof. unfold bad_density. apply orb_true_iff. Qed.

Lemma plain_bind {A B : Type} (m : outcome A) (k : A → outcome B) :
  plain m → (∀ a, plain (k a)) → plain (bind m k).
Proof. destruct m; simpl; auto. Qed.

Lemma plain_make {A : Type} (zero : A) (n : Z) : plain (make zero n).
Proof. unfold make. by destruct (n <? 0). Qed.

Lemma plain_slice_get {A : Type} (s : list A) (i : Z) : plain (slice_get s i).
Proof. unfold slice_get. destruct (i <? 0); [done|]. by destruct (s !! _). Qed.

Lemma plain_slice_set {A : Type} (s : list A) (i : Z) (v : A) :
  plain (slice_set s i v).
Proof. unfold slice_set. by destruct (_ && _). Qed.

Lemma plain_flatToNd (shape : list Z) (flat : Z) : plain (flatToNd shape flat).
Proof. unfold flatToNd. by destruct (_ && _). Qed.

Lemma plain_ndToFlat (shape coord : list Z) : plain (ndToFlat shape coord).
Proof. unfold ndToFlat. by destruct (valid_coord _ _). Qed.

Lemma plain_Item (m : Matrix) (index : list Z) : plain (Item m index).
Proof.
  destruct m as [shape array | shape values | shape diag]; unfold Item.
  - apply plain_bind; [apply plain_ndToFlat | intros; apply plain_slice_get].
  - destruct (valid_coord shape index); [|done].
    destruct index as [|i [|j [|]]]; try done.
    apply plain_bind; [apply plain_slice_get | done].
  - destruct (valid_coord shape index); [|done].
    destruct index as [|i [|j [|]]]; try done.
    destruct (i =? j); [apply plain_slice_get | done].
Qed.

Lemma plain_ItemSet (m : Matrix) (value : float64) (index : list Z) :
  plain (ItemSet m value index).
Proof.
  destruct m as [shape array | shape values | shape diag]; unfold ItemSet.
  - apply plain_bind; [apply plain_ndToFlat|]. intros flat.
    apply plain_bind; [apply plain_slice_set | done].
  - destruct (valid_coord shape index); [|done].
    destruct index as [|i [|j [|]]]; try done.
    apply plain_bind; [apply plain_slice_get|]. intros row.
    apply plain_bind; [apply plain_slice_set | done].
  - destruct (valid_coord shape index); [|done].
    destruct index as [|i [|j [|]]]; try done.
    destruct (i =? j); [|done].
    apply plain_bind; [apply plain_slice_set | done].
Qed.

Lemma plain_for_each {A S : Type} (body : S → A → outcome S) (l : list A) (st : S) :
  (∀ st x, plain (body st x)) → plain (for_each body l st).
Proof.
  intros Hbody. revert st. induction l as [|x l IH]; intros st; simpl; [done|].
  apply plain_bind; [apply Hbody | apply IH].
Qed.

Lemma plain_for_range {A S : Type} (body : S → Z → A → outcome S) (l : list A)
    (idx : Z) (st : S) :
  (∀ st idx x, plain (body st idx x)) → plain (for_range body idx l st).
Proof.
  intros Hbody. revert idx st. induction l as [|x l IH]; intros idx st; simpl; [done|].
  apply plain_bind; [apply Hbody | intros; apply IH].
Qed.

Lemma plain_SparseCoo (rows cols : Z) (array : list float64) :
  plain (SparseCoo rows cols array).
Proof.
  unfold SparseCoo. apply plain_bind; [apply plain_make|]. intros values.
  apply plain_for_range. intros m idx val. destruct (Go.fne val Go.fzero); [|done].
  apply plain_bind; [apply plain_flatToNd | intros; apply plain_ItemSet].
Qed.

Lemma plain_Intn (n : Z) (r : Rand) : plain (Intn n r).
Proof. unfold Intn. destruct (n <=? 0); [done|]. by destruct (intn_tape r). Qed.

Lemma plain_Float64 (r : Rand) : plain (Float64 r).
Proof. unfold Float64. by destruct (float64_tape r). Qed.

Lemma plain_NormFloat64 (r : Rand) : plain (NormFloat64 r).
Proof. unfold NormFloat64. by destruct (normfloat64_tape r). Qed.

Lemma plain_place (draw : Rand → outcome (float64 * Rand)) (shape : list Z)
    (size : Z) (fuel : nat) (matrix : Matrix) (r : Rand) :
  (∀ r, plain (draw r)) → plain (place draw shape size fuel matrix r).
Proof.
  intros Hdraw. revert r. induction fuel as [|fuel IH]; intros r; simpl; [done|].
  apply plain_bind; [apply plain_Intn|]. intros zr.
  apply plain_bind; [apply plain_flatToNd|]. intros coord.
  apply plain_bind; [apply plain_Item|]. intros v.
  destruct (Go.feq v Go.fzero); [|apply IH].
  apply plain_bind; [apply Hdraw|]. intros xr.
  apply plain_bind; [apply plain_ItemSet | done].
Qed.

Lemma plain_populate (draw : Rand → outcome (float64 * Rand)) (rows cols : Z)
    (density : float64) (r : Rand) :
  (∀ r, plain (draw r)) → plain (populate draw rows cols density r).
Proof.
  intros Hdraw. unfold populate.
  apply plain_bind; [apply plain_SparseCoo|]. intros matrix.
  apply plain_for_each. intros st _. by apply plain_place.
Qed.

Lemma quiet_Float64 : quiet Float64.
Proof. intros r. unfold Float64. by destruct (float64_tape r). Qed.

Lemma quiet_NormFloat64 : quiet NormFloat64.
Proof. intros r. unfold NormFloat64. by destruct (normfloat64_tape r). Qed.

(** No cells, no draws: the target count of an empty matrix is not
    positive, whatever the density (NaN included). *)
Lemma target_count_zero (density : float64) : target_count 0 density ≤ 0.
Proof.
  unfold target_count, Go.int_of_float64.
  rewrite FloatAxioms.mul_spec.
  change (FloatOps.Prim2SF (Go.float64_of_int 0)) with (SpecFloat.S754_zero false).
  destruct (FloatOps.Prim2SF density) as [s | s | | s m e]; simpl;
    unfold Go.min_int; lia.
Qed.

(** A turn of the sampling loop on a sparse coordinate matrix with cells
    never panics when the source respects the range of Intn. *)
Lemma place_no_panic (draw : Rand → outcome (float64 * Rand)) (rows cols : Z)
    (fuel : nat) :
  quiet draw → 0 ≤ rows → 0 < rows * cols →
  ∀ (m : Matrix) (r : Rand),
    coo_of rows cols m →
    Forall (λ z, 0 ≤ z < rows * cols) (intn_tape r) →
    match place draw [rows; cols] (rows * cols) fuel m r with
    | Ret st => coo_of rows cols st.1
                ∧ Forall (λ z, 0 ≤ z < rows * cols) (intn_tape st.2)
    | Panic _ => False
    | Spin => True
    end.
Proof.
  intros Hquiet Hrows Hsize.
  induction fuel as [|fuel IH]; intros m r (values & -> & Hlen) Hints;
    cbn [place]; [done|].
  unfold Intn. destruct (Z.leb_spec (rows * cols) 0); [lia|].
  destruct (intn_tape r) as [|z tape] eqn:Htape; cbn [bind]; [done|].
  apply Forall_cons in Hints as [Hz Hints]. cbn [fst snd].
  destruct (flatToNd_2d rows cols z) as (i & j & -> & Hi & Hj & ->);
    [lia | nia | done |].
  cbn [bind]. rewrite Item_coo by done. cbn [bind].
  destruct (Go.feq _ Go.fzero).
  - pose proof (Hquiet (mkRand tape (float64_tape r) (normfloat64_tape r))) as Hdraw.
    destruct (draw _) as [[x r']| |]; cbn [bind fst snd]; [|done|done].
    destruct (ItemSet_coo rows cols values x i j Hlen Hi Hj)
      as (values' & -> & Hlen' & _). cbn [bind fst snd].
    split; [exists values'; split; [done | lia]|].
    simpl in Hdraw. by rewrite Hdraw.
  - apply IH; [by exists values | done].
Qed.

Lemma populate_no_panic (draw : Rand → outcome (float64 * Rand)) (rows cols : Z)
    (density : float64) (r : Rand) :
  quiet draw → wf_shape rows cols →
  Forall (λ z, 0 ≤ z < rows * cols) (intn_tape r) →
  ¬ panics (populate draw rows cols density r).
Proof.
  intros Hquiet Hfit Hints. pose proof Hfit as (Hrows & Hcols & _).
  unfold populate.
  destruct (SparseCoo_total rows cols []) as (values & -> & Hlen & _);
    [done | simpl; nia |].
  cbn [bind]. rewrite mul_wf by done.
  destruct (Z.le_gt_cases (target_count (rows * cols) density) 0) as [Hcount|Hcount].
  { rewrite upto_nonpos by done. intros [why [=]]. }
  assert (0 < rows * cols) as Hsize.
  { destruct (decide (rows * cols = 0)) as [Hz|]; [|nia].
    rewrite Hz in Hcount. pose proof (target_count_zero density). lia. }
  assert (∀ l st,
            coo_of rows cols st.1 →
            Forall (λ z, 0 ≤ z < rows * cols) (intn_tape st.2) →
            ¬ panics
                (for_each
                   (λ (st : Matrix * Rand) (_ : Z),
                      place draw [rows; cols] (rows * cols)
                        (S (length (intn_tape st.2))) st.1 st.2)
                   l st)) as Hloop.
  { induction l as [|x l IH]; intros st Hst Htape; cbn [for_each].
    - intros [why [=]].
    - pose proof (place_no_panic draw rows cols (S (length (intn_tape st.2)))
                    Hquiet Hrows Hsize st.1 st.2 Hst Htape) as Hplace.
      destruct (place _ _ _ _ _ _) as [st'| |]; cbn [bind].
      + destruct Hplace. by apply IH.
      + done.
      + intros [why [=]]. }
  apply Hloop; [by exists values | done].
Qed.

(** C6: SparseRand and SparseRandN stop with their density panic exactly
    when density < 0 or density >= 1 holds; and on a valid shape, with
    Intn within its range, that is the only way in which they panic. *)
Theorem density_precondition (rows cols : Z) (density : float64) (r : Rand) :
  let violated :=
    Go.flt density Go.fzero = true ∨ Go.fge density Go.fone = true in
  ((∃ d, SparseRand rows cols density r = Panic (BadDensityRand d)) ↔ violated)
  ∧ ((∃ d, SparseRandN rows cols density r = Panic (BadDensityRandN d)) ↔ violated)
  ∧ (wf_shape rows cols →
     Forall (λ z, 0 ≤ z < rows * cols) (intn_tape r) →
     (panics (SparseRand rows cols density r) ↔ violated)
     ∧ (panics (SparseRandN rows cols density r) ↔ violated)).
Proof.
  intros violated. unfold violated. rewrite <- bad_density_spec.
  unfold SparseRand, SparseRandN.
  destruct (bad_density density) eqn:Hbad.
  - split; [|split; [|intros _ _; split]]; split; try done; intros _;
      eexists; done.
  - split; [|split; [|intros Hfit Hints; split]]; split; try done.
    + intros [d Hd].
      pose proof (plain_populate Float64 rows cols density r plain_Float64) as Hp.
      by rewrite Hd in Hp.
    + intros [d Hd].
      pose proof (plain_populate NormFloat64 rows cols density r plain_NormFloat64)
        as Hp.
      by rewrite Hd in Hp.
    + intros Hp. exfalso. revert Hp.
      by apply populate_no_panic; [apply quiet_Float64 | |].
    + intros Hp. exfalso. revert Hp.
      by apply populate_no_panic; [apply quiet_NormFloat64 | |].
Qed.

Lemma density_precondition_witness :
  panics (SparseRand 2 2 PrimFloat.one (mkRand [1; 3] [PrimFloat.one] []))
  ∧ ¬ panics (SparseRand 2 2 PrimFloat.zero (mkRand [1; 3] [PrimFloat.one] [])).
Proof.
  assert (wf_shape 2 2) as Hfit by (unfold wf_shape, Go.max_int; lia).
  assert (Forall (λ z, 0 ≤ z < 2 * 2) [1; 3]) as Hints
    by (repeat constructor; lia).
  split.
  - destruct (density_precondition 2 2 PrimFloat.one
                (mkRand [1; 3] [PrimFloat.one] [])) as (_ & _ & Hall).
    destruct (Hall Hfit Hints) as [Hrand _]. apply Hrand. right. reflexivity.
  - destruct (density_precondition 2 2 PrimFloat.zero
                (mkRand [1; 3] [PrimFloat.one] [])) as (_ & _ & Hall).
    destruct (Hall Hfit Hints) as [Hrand _]. intros Hp.
    apply Hrand in Hp as [Hp | Hp]; discriminate Hp.
Defined.

(** ** Randomized sparse population *)

Lemma ItemSet_coo_count (rows cols : Z) (values values' : list (gmap Z float64))
    (x : float64) (i j : Z) :
  Z.of_nat (length values) = rows → 0 ≤ i < rows → 0 ≤ j < cols →
  ItemSet (sparseCooF64Matrix [rows; cols] values) x [i; j]
  = Ret (sparseCooF64Matrix [rows; cols] values') →
  entry values i j = None →
  sum_list_with size values' = S (sum_list_with size values).
Proof.
  intros Hlen Hi Hj. unfold ItemSet.
  rewrite (proj2 (valid_coord_2d rows cols [i; j])) by (exists i, j; done).
  destruct (lookup_lt_is_Some_2 values (Z.to_nat i)) as [row Hrow]; [lia|].
  rewrite (proj2 (slice_get_Ret values i row)) by (split; [lia | done]).
  cbn [bind]. rewrite slice_set_Ret by lia. cbn [bind].
  intros [= <-] Hnone.
  rewrite (entry_lookup values i j row) in Hnone by (lia || done).
  rewrite insert_take_drop by lia.
  rewrite <- (take_drop_middle values (Z.to_nat i) row Hrow) at 3.
  rewrite !sum_list_with_app. cbn [sum_list_with].
  rewrite map_size_insert_None by done. lia.
Qed.

Lemma feq_fne (v : float64) : Go.feq v Go.fzero = negb (Go.fne v Go.fzero).
Proof. unfold Go.feq, Go.fne. by rewrite negb_involutive. Qed.

Lemma filled_empty (rows cols : Z) :
  0 ≤ rows →
  filled rows cols ∅ (replicate (Z.to_nat rows) (∅ : gmap Z float64)).
Proof.
  intros Hrows. split; [rewrite length_replicate; lia|].
  split; [intros z Hz; by apply not_elem_of_empty in Hz|]. split.
  - rewrite size_empty. generalize (Z.to_nat rows).
    induction n as [|n IH]; simpl; [done|]. by rewrite map_size_empty.
  - intros i j _ _. rewrite entry_replicate_empty. apply not_elem_of_empty.
Qed.

(** One pass of the inner loop: with a draw ahead on the Intn tape that
    hits a cell without an entry, and a value of (0, 1) ahead on the
    Float64 tape, the loop returns, and the storage has one more entry,
    at a cell that had none. *)
Lemma place_fills (rows cols : Z) (fuel : nat) :
  0 ≤ rows → 0 ≤ cols → 0 < rows * cols →
  ∀ (values : list (gmap Z float64)) (r : Rand) (cells : gset Z)
    (x : float64) (floats : list float64),
    filled rows cols cells values →
    Forall (λ z, 0 ≤ z < rows * cols) (intn_tape r) →
    (length (intn_tape r) < fuel)%nat →
    (∃ z, z ∈ intn_tape r ∧ z ∉ cells) →
    float64_tape r = x :: floats →
    Go.fne x Go.fzero = true → unit_interval x = true →
    ∃ values' z0 ints,
      place Float64 [rows; cols] (rows * cols) fuel
        (sparseCooF64Matrix [rows; cols] values) r
      = Ret (sparseCooF64Matrix [rows; cols] values',
             mkRand ints floats (normfloat64_tape r))
      ∧ filled rows cols (cells ∪ {[z0]}) values'
      ∧ (z0 ∉ cells)
      ∧ Forall (λ z, 0 ≤ z < rows * cols) ints
      ∧ (∀ z, z ∈ intn_tape r → z ∈ cells ∨ z = z0 ∨ z ∈ ints).
Proof.
  intros Hrows Hcols Hsize. induction fuel as [|fuel IH];
    intros values r cells x floats Hfilled Hints Hfuel (zf & Hzf & Hfresh)
      Hfloats Hnz Hunit; [lia|].
  pose proof Hfilled as (Hlen & Hcells & Hcount & Hentries).
  cbn [place]. unfold Intn. destruct (Z.leb_spec (rows * cols) 0); [lia|].
  destruct (intn_tape r) as [|z tape] eqn:Htape; [by apply elem_of_nil in Hzf|].
  apply Forall_cons in Hints as [Hz Hints]. cbn [bind fst snd].
  destruct (flatToNd_2d rows cols z) as (i & j & -> & Hi & Hj & ->);
    [done | nia | done |].
  cbn [bind]. rewrite Item_coo by done. cbn [bind].
  pose proof (Hentries i j Hi Hj) as Hentry.
  rewrite feq_fne. destruct (entry values i j) as [v|] eqn:Hv; cbn [from_option id].
  - destruct Hentry as (Hin & -> & _). cbn [negb].
    destruct (IH values (mkRand tape (float64_tape r) (normfloat64_tape r))
                cells x floats)
      as (values' & z0 & ints & Hplace & Hfilled' & Hz0 & Hints' & Hcover);
      [done | done | simpl in *; lia | | done | done | done |].
    { exists zf. split; [|done]. apply elem_of_cons in Hzf as [->|Hzf]; done. }
    exists values', z0, ints. split; [done|]. do 3 (split; [done|]).
    intros z' [->|Hz']%elem_of_cons; [by left | by apply Hcover].
  - assert (Go.fne Go.fzero Go.fzero = false) as -> by done. cbn [negb].
    unfold Float64. cbn [float64_tape]. rewrite Hfloats. cbn [bind fst snd].
    destruct (ItemSet_coo rows cols values x i j Hlen Hi Hj)
      as (values' & Hset & Hlen' & Hsame & Hother).
    rewrite Hset. cbn [bind intn_tape normfloat64_tape].
    exists values', (i * cols + j), tape. split; [done|].
    split; [|split; [done|split; [done|]]].
    + split; [lia|]. split; [|split].
      * intros z' [Hz'|Hz']%elem_of_union; [by apply Hcells|].
        apply elem_of_singleton in Hz' as ->. done.
      * rewrite (ItemSet_coo_count rows cols values values' x i j) by done.
        rewrite size_union by (by apply disjoint_singleton_r).
        rewrite size_singleton. lia.
      * intros i' j' Hi' Hj'. destruct (decide (i' = i ∧ j' = j)) as [[-> ->]|Hne].
        -- rewrite Hsame. split; [|done].
           by apply elem_of_union_r, elem_of_singleton.
        -- rewrite Hother by done. specialize (Hentries i' j' Hi' Hj').
           assert (i' * cols + j' ≠ i * cols + j) as Hpos.
           { intros Heq. apply Hne. by apply (flat_position_inj cols). }
           destruct (entry values i' j') as [w|].
           ++ destruct Hentries as (? & ? & ?). split; [|done].
              by apply elem_of_union_l.
           ++ intros [Hin|Hin]%elem_of_union; [done|].
              by apply elem_of_singleton in Hin.
    + intros z' [->|Hz']%elem_of_cons; [right; by left | right; by right].
Qed.

(** The outer loop: as many passes as there are fresh cells ahead on the
    Intn tape and values ahead on the Float64 tape all return. *)
Lemma populate_fills (rows cols : Z) (l : list Z) :
  0 ≤ rows → 0 ≤ cols → 0 < rows * cols →
  ∀ (values : list (gmap Z float64)) (r : Rand) (cells : gset Z),
    filled rows cols cells values →
    Forall (λ z, 0 ≤ z < rows * cols) (intn_tape r) →
    Forall (λ x, Go.fne x Go.fzero = true ∧ unit_interval x = true)
      (float64_tape r) →
    (length l ≤ size (list_to_set (intn_tape r) ∖ cells : gset Z))%nat →
    (length l ≤ length (float64_tape r))%nat →
    ∃ values' r' cells',
      for_each
        (λ (st : Matrix * Rand) (_ : Z),
           place Float64 [rows; cols] (rows * cols)
             (S (length (intn_tape st.2))) st.1 st.2)
        l (sparseCooF64Matrix [rows; cols] values, r)
      = Ret (sparseCooF64Matrix [rows; cols] values', r')
      ∧ filled rows cols cells' values'
      ∧ size cells' = (size cells + length l)%nat.
Proof.
  intros Hrows Hcols Hsize.
  induction l as [|y l IH]; intros values r cells Hfilled Hints Hfloats Hfresh Hlen.
  - exists values, r, cells. split; [done|]. split; [done|]. simpl. lia.
  - cbn [for_each length fst snd] in *.
    destruct (float64_tape r) as [|x floats] eqn:Hfl; [simpl in Hlen; lia|].
    apply Forall_cons in Hfloats as [[Hnz Hunit] Hfloats].
    destruct (size_pos_elem_of (list_to_set (intn_tape r) ∖ cells : gset Z))
      as [zf Hzf]; [lia|].
    apply elem_of_difference in Hzf as [Hzf Hzfresh].
    apply elem_of_list_to_set in Hzf.
    destruct (place_fills rows cols (S (length (intn_tape r))) Hrows Hcols Hsize
                values r cells x floats)
      as (values1 & z0 & ints & -> & Hfilled1 & Hz0 & Hints1 & Hcover);
      [done | done | lia | by exists zf | done | done | done |].
    cbn [bind].
    destruct (IH values1 (mkRand ints floats (normfloat64_tape r)) (cells ∪ {[z0]}))
      as (values' & r' & cells' & Hloop & Hfilled' & Hsize');
      [done | done | done | | simpl in *; lia |].
    + cbn [intn_tape].
      assert (list_to_set (intn_tape r) ∖ cells
              ⊆ {[z0]} ∪ (list_to_set ints ∖ (cells ∪ {[z0]}) : gset Z)) as Hsub.
      { intros z [Hz Hzc]%elem_of_difference. apply elem_of_list_to_set in Hz.
        destruct (decide (z = z0)) as [->|Hne];
          [by apply elem_of_union_l, elem_of_singleton|].
        destruct (Hcover z Hz) as [?|[?|Hin]]; [done | done |].
        apply elem_of_union_r, elem_of_difference.
        split; [by apply elem_of_list_to_set|].
        intros [Hc|Hc]%elem_of_union; [done|].
        by apply elem_of_singleton in Hc. }
      pose proof (subseteq_size
                    (list_to_set (intn_tape r) ∖ cells : gset Z) _ Hsub) as Hle.
      assert (size ({[z0]} ∪ (list_to_set ints ∖ (cells ∪ {[z0]})) : gset Z)
              = S (size (list_to_set ints ∖ (cells ∪ {[z0]}) : gset Z))) as Hu.
      { rewrite size_union, size_singleton; [done|].
        apply disjoint_singleton_l. intros [_ Hc]%elem_of_difference.
        by apply Hc, elem_of_union_r, elem_of_singleton. }
      lia.
    + exists values', r', cells'. split; [done|]. split; [done|].
      rewrite Hsize', size_union, size_singleton
        by (by apply disjoint_singleton_r). lia.
Qed.

(** The cells that read nonzero are the cells with an entry. *)
Lemma CountNonzero_filled (rows cols : Z) (values : list (gmap Z float64))
    (cells : gset Z) :
  0 ≤ rows → 0 ≤ cols →
  filled rows cols cells values →
  CountNonzero (sparseCooF64Matrix [rows; cols] values) = size cells
  ∧ stored_entries (sparseCooF64Matrix [rows; cols] values) = size cells
  ∧ ∀ flat v, cell (sparseCooF64Matrix [rows; cols] values) flat = Ret v →
      Go.fne v Go.fzero = true → unit_interval v = true.
Proof.
  intros Hrows Hcols (Hlen & Hcells & Hcount & Hentries).
  assert (∀ flat v, cell (sparseCooF64Matrix [rows; cols] values) flat = Ret v →
            Go.fne v Go.fzero = true → flat ∈ cells ∧ unit_interval v = true)
    as Hcell.
  { intros flat v Hv Hnz. unfold cell in Hv. cbn [Shape] in Hv.
    apply bind_Ret in Hv as (coord & Hflat & Hv).
    apply flatToNd_2d_inv in Hflat as (i & j & -> & _ & Hi & Hj & ->); [|done].
    rewrite Item_coo in Hv by done. injection Hv as <-.
    specialize (Hentries i j Hi Hj).
    destruct (entry values i j) as [w|]; [|done].
    by destruct Hentries as (? & ? & ?). }
  split; [|split; [done|]].
  - unfold CountNonzero. cbn [Shape product foldr]. rewrite Z.mul_1_r.
    unfold size at 1, set_size. simpl. apply Permutation_length.
    apply NoDup_Permutation.
    + apply NoDup_filter, NoDup_seqZ.
    + apply NoDup_elements.
    + intros flat. rewrite list_elem_of_filter, elem_of_upto, elem_of_elements.
      unfold is_nonzero. split.
      * intros [Hnz _].
        destruct (cell _ flat) as [v| |] eqn:Hv; try discriminate.
        by apply (Hcell flat v).
      * intros Hin. specialize (Hcells flat Hin). split; [|lia].
        destruct (flatToNd_2d rows cols flat) as (i & j & Hflat & Hi & Hj & ->);
          [done | done | lia |].
        unfold cell. cbn [Shape]. rewrite Hflat. cbn [bind].
        rewrite Item_coo by done. specialize (Hentries i j Hi Hj).
        destruct (entry values i j) as [w|]; [|done].
        by destruct Hentries as (? & ? & ?).
  - intros flat v Hv Hnz. by apply (Hcell flat v).
Qed.


Lemma target_count_density_zero (size : Z) : target_count size Go.fzero ≤ 0.
Proof.
  unfold target_count, Go.int_of_float64.
  rewrite FloatAxioms.mul_spec.
  change (FloatOps.Prim2SF Go.fzero) with (SpecFloat.S754_zero false).
  destruct (FloatOps.Prim2SF (Go.float64_of_int size)) as [s | s | | s m e]; simpl;
    unfold Go.min_int; lia.
Qed.

(** C3, as the code has it.  On a valid shape, density 0 gives a matrix
    without a nonzero cell and without an entry, whatever the random
    source does.  For a density that passes the check, let count be
    int(float64(rows*cols) * density).  If the source keeps its contract
    (Intn within the cells, Float64 within [0, 1)), never hands out the
    value zero, and has count distinct cells ahead among its Intn results
    and count values ahead, then SparseRand returns a sparse coordinate
    matrix with exactly count cells that read nonzero, exactly count
    entries, and every nonzero cell in [0, 1). *)
Theorem SparseRand_count (rows cols : Z) (r : Rand) :
  wf_shape rows cols →
  (∃ values,
     SparseRand rows cols Go.fzero r
     = Ret (sparseCooF64Matrix [rows; cols] values, r)
     ∧ CountNonzero (sparseCooF64Matrix [rows; cols] values) = 0%nat
     ∧ stored_entries (sparseCooF64Matrix [rows; cols] values) = 0%nat)
  ∧ (∀ density,
       bad_density density = false →
       fair (rows * cols) r →
       Forall (λ x, Go.fne x Go.fzero = true) (float64_tape r) →
       (Z.to_nat (target_count (rows * cols) density)
        ≤ size (list_to_set (intn_tape r) : gset Z))%nat →
       (Z.to_nat (target_count (rows * cols) density)
        ≤ length (float64_tape r))%nat →
       ∃ values r',
         SparseRand rows cols density r
         = Ret (sparseCooF64Matrix [rows; cols] values, r')
         ∧ CountNonzero (sparseCooF64Matrix [rows; cols] values)
           = Z.to_nat (target_count (rows * cols) density)
         ∧ stored_entries (sparseCooF64Matrix [rows; cols] values)
           = Z.to_nat (target_count (rows * cols) density)
         ∧ ∀ flat v,
             cell (sparseCooF64Matrix [rows; cols] values) flat = Ret v →
             Go.fne v Go.fzero = true → unit_interval v = true).
Proof.
  intros Hfit. pose proof Hfit as (Hrows & Hcols & _).
  destruct (SparseCoo_total rows cols []) as (empty & Hcoo & Hlen & Hnone);
    [done | simpl; nia |].
  assert (empty = replicate (Z.to_nat rows) (∅ : gmap Z float64)) as ->.
  { unfold SparseCoo in Hcoo. rewrite make_Ret in Hcoo by done.
    by injection Hcoo as <-. }
  pose proof (filled_empty rows cols Hrows) as Hempty.
  destruct (CountNonzero_filled rows cols _ _ Hrows Hcols Hempty)
    as (Hnz0 & Hst0 & Hunit0).
  rewrite size_empty in Hnz0, Hst0.
  split.
  - eexists. unfold SparseRand. assert (bad_density Go.fzero = false) as -> by done.
    unfold populate. rewrite Hcoo. cbn [bind]. rewrite mul_wf by done.
    rewrite upto_nonpos by apply target_count_density_zero. done.
  - intros density Hbad [Hints Hunit] Hnonzero Hdistinct Hvalues.
    unfold SparseRand. rewrite Hbad. unfold populate. rewrite Hcoo. cbn [bind].
    rewrite mul_wf by done.
    destruct (Z.le_gt_cases (target_count (rows * cols) density) 0) as [Hcount|Hcount].
    { rewrite upto_nonpos by done. cbn [for_each].
      replace (Z.to_nat (target_count (rows * cols) density)) with 0%nat by lia.
      eexists _, _. split; [done|]. done. }
    assert (0 < rows * cols) as Hsize.
    { destruct (size_pos_elem_of (list_to_set (intn_tape r) : gset Z))
        as [z Hz]; [lia|].
      apply elem_of_list_to_set in Hz.
      rewrite Forall_forall in Hints. specialize (Hints z Hz). lia. }
    destruct (populate_fills rows cols
                (upto (target_count (rows * cols) density)) Hrows Hcols Hsize
                _ r ∅ Hempty)
      as (values & r' & cells & -> & Hfilled & Hcells).
    + done.
    + apply Forall_and. done.
    + unfold upto. rewrite length_seqZ, difference_empty_L. done.
    + unfold upto. rewrite length_seqZ. done.
    + destruct (CountNonzero_filled rows cols _ _ Hrows Hcols Hfilled)
        as (Hnz & Hst & Hin).
      exists values, r'. split; [done|].
      unfold upto in Hcells. rewrite length_seqZ, size_empty in Hcells.
      rewrite Hnz, Hst, Hcells. done.
Qed.

Lemma SparseRand_count_witness :
  ∃ values r',
    SparseRand 1 3 half (mkRand [2; 2; 0] [half] [])
    = Ret (sparseCooF64Matrix [1; 3] values, r')
    ∧ CountNonzero (sparseCooF64Matrix [1; 3] values) = 1%nat.
Proof.
  assert (wf_shape 1 3) as Hfit by (unfold wf_shape, Go.max_int; lia).
  destruct (SparseRand_count 1 3 (mkRand [2; 2; 0] [half] []) Hfit) as [_ Hfill].
  destruct (Hfill half) as (values & r' & Hret & Hnz & _).
  - reflexivity.
  - split; repeat constructor; lia.
  - repeat constructor.
  - vm_compute. lia.
  - vm_compute. lia.
  - exists values, r'. split; [exact Hret|exact Hnz].
Defined.

(** Counterexample to C3 as the design document words it: a draw of the
    value zero, which Float64 may return.  With density one half on a 1x2
    matrix the target is one entry; Float64 hands out 0, and the matrix
    that comes back has no nonzero cell.  On a 1x3 matrix with target
    two, a zero stored at cell 0 is drawn over by the next pass, and the
    result has one entry where two were asked for. *)
Lemma SparseRand_zero_draw :
  (fair (1 * 2) (mkRand [0] [Go.fzero] [])
   ∧ bad_density half = false
   ∧ target_count (1 * 2) half = 1
   ∧ ∃ m r', SparseRand 1 2 half (mkRand [0] [Go.fzero] []) = Ret (m, r')
             ∧ CountNonzero m = 0%nat)
  ∧ (fair (1 * 3) (mkRand [0; 0] [Go.fzero; half] [])
     ∧ target_count (1 * 3) (PrimFloat.add half (PrimFloat.mul half half)) = 2
     ∧ ∃ m r',
         SparseRand 1 3 (PrimFloat.add half (PrimFloat.mul half half))
           (mkRand [0; 0] [Go.fzero; half] [])
         = Ret (m, r')
         ∧ CountNonzero m = 1%nat ∧ stored_entries m = 1%nat).
Proof.
  split.
  - split; [split; repeat constructor; lia|].
    split; [reflexivity|]. split; [reflexivity|].
    eexists _, _. split; [vm_compute; reflexivity | reflexivity].
  - split; [split; repeat constructor; lia|].
    split; [reflexivity|].
    eexists _, _. split; [vm_compute; reflexivity | split; reflexivity].
Qed.

(** The sampling loop goes on for as long as the source repeats a filled
    cell: on this tape of three equal draws the second pass never finds
    a free cell. *)
Lemma SparseRand_repeated_draw :
  SparseRand 1 3 (PrimFloat.add half (PrimFloat.mul half half))
    (mkRand [0; 0; 0] [half; half] [])
  = Spin.
Proof. reflexivity. Qed.

(** * Further properties of matrix.go *)

(** ** Diag and Eye *)

Lemma Diag_loop (n : Z) (diag : list float64) :
  ∀ (k : nat) (buf : list float64),
    Z.of_nat (length buf) = n → (k + length diag ≤ length buf)%nat →
    for_range (λ array i v, ItemSet array v [i; i]) (Z.of_nat k) diag
      (sparseDiagF64Matrix [n; n] buf)
    = Ret (sparseDiagF64Matrix [n; n]
             (take k buf ++ diag ++ drop (k + length diag) buf)).
Proof.
  induction diag as [|v diag IH]; intros k buf Hn Hlen; cbn [for_range length] in *.
  - rewrite Nat.add_0_r. cbn [app]. by rewrite take_drop.
  - rewrite ItemSet_diag by lia. cbn [bind]. rewrite Nat2Z.id.
    replace (Z.of_nat k + 1) with (Z.of_nat (S k)) by lia.
    rewrite IH by (rewrite length_insert; lia).
    do 2 f_equal.
    assert (<[k:=v]> buf !! k = Some v) as Hk
      by (apply list_lookup_insert_eq; lia).
    rewrite (take_S_r _ _ _ Hk), take_insert_ge by lia.
    rewrite drop_insert_lt by lia.
    replace (k + S (length diag))%nat with (S k + length diag)%nat by lia.
    by rewrite <- app_assoc.
Qed.

Lemma Diag_Ret (diag : list float64) :
  Diag diag
  = Ret (sparseDiagF64Matrix
           [Z.of_nat (length diag); Z.of_nat (length diag)] diag).
Proof.
  unfold Diag. rewrite SparseDiag_Ret by (simpl; lia). cbn [bind length app].
  rewrite Z.min_id, Nat2Z.id, Nat.sub_0_r.
  rewrite (Diag_loop _ diag 0) by (rewrite length_replicate; lia).
  cbn [take Nat.add app]. rewrite drop_replicate, Nat.sub_diag. cbn [replicate].
  by rewrite app_nil_r.
Qed.

(** X1: Diag never panics.  For any values it returns the square sparse
    diagonal matrix whose buffer is exactly these values, the matrix that
    SparseDiag(n, n, diag...) builds; cell (k, k) reads the k-th value
    and every other cell reads zero. *)
Theorem Diag_SparseDiag (diag : list float64) :
  let n := Z.of_nat (length diag) in
  Diag diag = Ret (sparseDiagF64Matrix [n; n] diag)
  ∧ Diag diag = SparseDiag n n diag
  ∧ (∀ k v, diag !! k = Some v →
       Item (sparseDiagF64Matrix [n; n] diag) [Z.of_nat k; Z.of_nat k] = Ret v)
  ∧ (∀ i j, 0 ≤ i < n → 0 ≤ j < n → i ≠ j →
       Item (sparseDiagF64Matrix [n; n] diag) [i; j] = Ret Go.fzero).
Proof.
  intros n. unfold n. split; [apply Diag_Ret|]. split; [|split].
  - rewrite Diag_Ret, SparseDiag_Ret by lia.
    rewrite Z.min_id, Nat2Z.id, Nat.sub_diag. cbn [replicate].
    by rewrite app_nil_r.
  - intros k v Hk. pose proof (lookup_lt_Some _ _ _ Hk) as Hlt.
    rewrite Item_diag, Z.eqb_refl by lia.
    apply slice_get_Ret. split; [lia|]. by rewrite Nat2Z.id.
  - intros i j Hi Hj Hne. rewrite Item_diag by done.
    by destruct (Z.eqb_spec i j).
Qed.

Lemma Diag_SparseDiag_witness :
  Diag [PrimFloat.one; PrimFloat.two]
  = SparseDiag 2 2 [PrimFloat.one; PrimFloat.two]
  ∧ Item (sparseDiagF64Matrix [2; 2] [PrimFloat.one; PrimFloat.two]) [1; 1]
    = Ret PrimFloat.two.
Proof.
  destruct (Diag_SparseDiag [PrimFloat.one; PrimFloat.two])
    as (_ & Hsame & Hdiag & _).
  split; [exact Hsame|]. exact (Hdiag 1%nat PrimFloat.two eq_refl).
Defined.

Lemma Eye_ones (size : Z) :
  0 ≤ size →
  for_each (λ diag i, slice_set diag i Go.fone) (upto size)
    (replicate (Z.to_nat size) Go.fzero)
  = Ret (replicate (Z.to_nat size) Go.fone).
Proof.
  intros Hsize.
  destruct (for_each_upto_total
              (λ (diag : list float64) i, slice_set diag i Go.fone)
              (λ k diag,
                 diag = replicate (Z.to_nat k) Go.fone
                        ++ replicate (Z.to_nat (size - k)) Go.fzero)
              size (replicate (Z.to_nat size) Go.fzero))
    as (diag & -> & ->); [done | by rewrite Z.sub_0_r | |].
  - intros k diag Hk ->.
    rewrite slice_set_Ret
      by (rewrite length_app, !length_replicate; lia).
    eexists. split; [done|].
    rewrite insert_app_r_alt by (rewrite length_replicate; lia).
    rewrite length_replicate, Nat.sub_diag.
    replace (Z.to_nat (size - k)) with (S (Z.to_nat (size - (k + 1)))) by lia.
    replace (Z.to_nat (k + 1)) with (Z.to_nat k + 1)%nat by lia.
    rewrite replicate_add. cbn [replicate]. by rewrite <- app_assoc.
  - rewrite Z.sub_diag. cbn [Z.to_nat replicate]. by rewrite app_nil_r.
Qed.

(** X2: Eye(size) panics exactly on a negative size.  Otherwise it
    returns the size x size sparse diagonal matrix with ones on the
    diagonal, the matrix Diag builds from that many ones: cell (i, i)
    reads 1 and every other cell reads 0. *)
Theorem Eye_identity (size : Z) :
  (panics (Eye size) ↔ size < 0)
  ∧ (0 ≤ size →
     Eye size
     = Ret (sparseDiagF64Matrix [size; size]
              (replicate (Z.to_nat size) Go.fone))
     ∧ Eye size = Diag (replicate (Z.to_nat size) Go.fone)
     ∧ ∀ i j, 0 ≤ i < size → 0 ≤ j < size →
         Item (sparseDiagF64Matrix [size; size]
                 (replicate (Z.to_nat size) Go.fone)) [i; j]
         = Ret (if i =? j then Go.fone else Go.fzero)).
Proof.
  assert (0 ≤ size →
          Eye size
          = Ret (sparseDiagF64Matrix [size; size]
                   (replicate (Z.to_nat size) Go.fone))) as Hret.
  { intros Hsize. unfold Eye. rewrite make_Ret by done. cbn [bind].
    rewrite Eye_ones by done. cbn [bind].
    rewrite Diag_Ret, length_replicate. by rewrite Z2Nat.id by done. }
  split.
  - split.
    + intros [why Hwhy]. destruct (Z.lt_ge_cases size 0) as [|Hge]; [done|].
      rewrite Hret in Hwhy by lia. discriminate.
    + intros Hneg. exists NegativeLen. unfold Eye, make.
      by destruct (Z.ltb_spec size 0); [|lia].
  - intros Hsize. split; [by apply Hret|]. split.
    + rewrite Hret, Diag_Ret, length_replicate by done.
      by rewrite Z2Nat.id by done.
    + intros i j Hi Hj. rewrite Item_diag by done.
      destruct (Z.eqb_spec i j) as [->|Hne]; [|done].
      apply slice_get_Ret. split; [lia|]. apply lookup_replicate_2. lia.
Qed.

Lemma Eye_identity_witness :
  Eye 3
  = Ret (sparseDiagF64Matrix [3; 3]
           [PrimFloat.one; PrimFloat.one; PrimFloat.one])
  ∧ panics (Eye (-1)).
Proof.
  split.
  - destruct (Eye_identity 3) as [_ Hok].
    destruct Hok as (Hret & _); [lia|]. exact Hret.
  - destruct (Eye_identity (-1)) as [Hpanic _]. apply Hpanic. lia.
Defined.

(** ** More on SparseCoo *)

Lemma literal_entry_in (rows cols : Z) (array : list float64) (i j : Z) :
  0 ≤ i < rows → 0 ≤ j < cols →
  literal_entry rows cols 0 array i j
  = match array !! Z.to_nat (i * cols + j) with
    | Some v => if Go.fne v Go.fzero then Some v else None
    | None => None
    end.
Proof.
  intros Hi Hj. unfold literal_entry.
  destruct (Z.leb_spec 0 i), (Z.ltb_spec i rows), (Z.leb_spec 0 j),
    (Z.ltb_spec j cols), (Z.leb_spec 0 (i * cols + j)); try lia; try nia.
  cbn [andb]. by rewrite Z.sub_0_r.
Qed.

Lemma SparseCoo_cell (rows cols : Z) (array : list float64) (m : Matrix) :
  SparseCoo rows cols array = Ret m →
  ∀ flat, 0 ≤ flat < rows * cols →
    cell m flat
    = Ret (match array !! Z.to_nat flat with
           | Some v => stored_value v
           | None => Go.fzero
           end).
Proof.
  intros Hm flat Hflat. pose proof (SparseCoo_spec rows cols array) as Hspec.
  rewrite Hm in Hspec. destruct Hspec as (Hrows & values & -> & Hlen & _ & Hent).
  unfold cell. cbn [Shape].
  destruct (flatToNd_2d rows cols flat) as (i & j & -> & Hi & Hj & ->);
    [done | nia | done |].
  cbn [bind]. rewrite Item_coo, Hent, literal_entry_in by done.
  unfold stored_value.
  destruct (array !! Z.to_nat (i * cols + j)) as [v|]; [|done].
  by destruct (Go.fne v Go.fzero).
Qed.

(** X3: SparseCoo panics exactly when the row count is negative or the
    literal holds a nonzero value at a flat position beyond the last
    cell; zeros past the end of the matrix are let through. *)
Theorem SparseCoo_panics_iff (rows cols : Z) (array : list float64) :
  panics (SparseCoo rows cols array)
  ↔ rows < 0
    ∨ ∃ idx v, array !! idx = Some v ∧ Go.fne v Go.fzero = true
               ∧ rows * cols ≤ Z.of_nat idx.
Proof.
  pose proof (SparseCoo_spec rows cols array) as Hspec.
  destruct (SparseCoo rows cols array) as [m|why|]; [| |done].
  - destruct Hspec as (Hrows & values & _ & _ & Hin & _). split.
    + intros [why [=]].
    + intros [Hneg | (idx & v & Hv & Hnz & Hout)]; [lia|].
      specialize (Hin idx v Hv Hnz). lia.
  - split; [done|]. intros _. by exists why.
Qed.

(** X4: a matrix that SparseCoo returns reads back its literal: the cell
    at flat position p holds the p-th literal value when that value is
    not zero, and +0 when it is zero (of either sign) or when the
    literal ends before p. *)
Theorem SparseCoo_reads (rows cols : Z) (array : list float64) (m : Matrix) :
  SparseCoo rows cols array = Ret m →
  Shape m = [rows; cols]
  ∧ ∀ i j, 0 ≤ i < rows → 0 ≤ j < cols →
      Item m [i; j]
      = Ret (match array !! Z.to_nat (i * cols + j) with
             | Some v => stored_value v
             | None => Go.fzero
             end).
Proof.
  intros Hm.
  assert (Shape m = [rows; cols]) as Hshape.
  { pose proof (SparseCoo_spec rows cols array) as Hspec. rewrite Hm in Hspec.
    by destruct Hspec as (_ & values & -> & _). }
  split; [done|]. intros i j Hi Hj.
  rewrite <- (cell_Item m rows cols) by done.
  apply (SparseCoo_cell rows cols array m Hm). nia.
Qed.

Lemma SparseCoo_reads_witness :
  ∃ m, SparseCoo 2 2 [PrimFloat.one; PrimFloat.opp PrimFloat.zero; PrimFloat.two]
       = Ret m
       ∧ Item m [1; 0] = Ret PrimFloat.two
       ∧ Item m [0; 1] = Ret Go.fzero
       ∧ Item m [1; 1] = Ret Go.fzero.
Proof.
  pose (array := [PrimFloat.one; PrimFloat.opp PrimFloat.zero; PrimFloat.two]).
  destruct (SparseCoo 2 2 array) as [m| |] eqn:Hm; try discriminate Hm.
  destruct (SparseCoo_reads 2 2 array m Hm) as [_ Hread].
  assert (0 ≤ 0 < 2) as H0 by lia. assert (0 ≤ 1 < 2) as H1 by lia.
  exists m. split; [exact Hm|].
  split; [|split]; [exact (Hread 1 0 H1 H0) | exact (Hread 0 1 H0 H1)
                   | exact (Hread 1 1 H1 H1)].
Defined.

Lemma SparseCoo_wf (rows cols : Z) (array : list float64) (m : Matrix) :
  SparseCoo rows cols array = Ret m → 0 ≤ cols → rows * cols ≤ Go.max_int →
  wf m.
Proof.
  intros Hm Hcols Hfit. pose proof (SparseCoo_spec rows cols array) as Hspec.
  rewrite Hm in Hspec. destruct Hspec as (Hrows & values & -> & Hlen & _).
  by exists rows, cols.
Qed.

(** X5: SparseCoo composed with ToMat64.  On a valid shape and a literal
    no longer than the matrix, the backend receives a rows x cols matrix
    whose row-major data is the literal, each value as it is stored,
    followed by zeros up to rows*cols values. *)
Theorem SparseCoo_ToMat64 (rows cols : Z) (array : list float64) :
  wf_shape rows cols → Z.of_nat (length array) ≤ rows * cols →
  ∃ m, SparseCoo rows cols array = Ret m
       ∧ ToMat64 m
         = Ret (mkDense rows cols
                  ((stored_value <$> array)
                   ++ replicate (Z.to_nat (rows * cols) - length array) Go.fzero)).
Proof.
  intros Hfit Hlen. pose proof Hfit as (Hrows & Hcols & Hmax).
  destruct (SparseCoo_total rows cols array Hrows Hlen) as (values & Hm & _).
  eexists. split; [exact Hm|].
  pose proof (SparseCoo_wf _ _ _ _ Hm Hcols Hmax) as Hwf.
  destruct (ToMat64_wf _ rows cols Hwf eq_refl) as (data & -> & Hdata & Hitems).
  do 2 f_equal. apply list_eq. intros p.
  destruct (decide (Z.of_nat p < rows * cols)) as [Hp|Hp].
  - destruct (flatToNd_2d rows cols (Z.of_nat p)) as (i & j & _ & Hi & Hj & Hpos);
      [done | done | lia |].
    destruct (Hitems i j Hi Hj) as (v & Hv & Hlook).
    rewrite <- Hpos, Nat2Z.id in Hlook. rewrite Hlook.
    rewrite <- (cell_Item _ rows cols), <- Hpos in Hv by done.
    rewrite (SparseCoo_cell rows cols array _ Hm) in Hv by lia.
    injection Hv as <-. rewrite Nat2Z.id.
    destruct (array !! p) as [v|] eqn:Hpv.
    + rewrite lookup_app_l
        by (rewrite length_fmap; by apply lookup_lt_Some in Hpv).
      by rewrite list_lookup_fmap, Hpv.
    + apply lookup_ge_None in Hpv.
      rewrite lookup_app_r by (by rewrite length_fmap).
      symmetry. apply lookup_replicate_2. rewrite length_fmap. lia.
  - rewrite !lookup_ge_None_2; [done | | lia].
    rewrite length_app, length_fmap, length_replicate. lia.
Qed.

Lemma SparseCoo_ToMat64_witness :
  ∃ m, SparseCoo 2 2 [PrimFloat.one; PrimFloat.zero; PrimFloat.two] = Ret m
       ∧ ToMat64 m
         = Ret (mkDense 2 2
                  [PrimFloat.one; PrimFloat.zero; PrimFloat.two; PrimFloat.zero]).
Proof.
  assert (wf_shape 2 2) as Hfit by (unfold wf_shape, Go.max_int; lia).
  destruct (SparseCoo_ToMat64 2 2 [PrimFloat.one; PrimFloat.zero; PrimFloat.two] Hfit)
    as (m & Hm & HA); [simpl; lia|].
  exists m. split; [exact Hm | exact HA].
Defined.

(** ** More on the backend bridge *)

Lemma ToMat64_dense (rows cols : Z) (data : list float64) :
  wf_shape rows cols → Z.of_nat (length data) = rows * cols →
  ToMat64 (denseF64Array [rows; cols] data) = Ret (mkDense rows cols data).
Proof.
  intros Hfit Hlen. unfold ToMat64, Rows, Cols, Array. cbn [Shape].
  assert (slice_get [rows; cols] 0 = Ret rows) as -> by done.
  assert (slice_get [rows; cols] 1 = Ret cols) as -> by done.
  cbn [bind]. unfold NewDense. rewrite mul_wf by done.
  by rewrite (proj2 (Z.eqb_eq _ _)) by lia.
Qed.

(** X6: from the backend and back.  A backend matrix of a valid shape
    whose data has rows*cols values is turned by ToMatrix into a
    well-formed dense matrix that holds exactly that data, and ToMat64
    turns this matrix into the backend matrix it came from. *)
Theorem ToMat64_ToMatrix (rows cols : Z) (data : list float64) :
  wf_shape rows cols → Z.of_nat (length data) = rows * cols →
  ToMatrix (mkDense rows cols data) = Ret (denseF64Array [rows; cols] data)
  ∧ wf (denseF64Array [rows; cols] data)
  ∧ ToMat64 (denseF64Array [rows; cols] data) = Ret (mkDense rows cols data).
Proof.
  intros Hfit Hlen. split; [by apply ToMatrix_Ret|].
  split; [by exists rows, cols | by apply ToMat64_dense].
Qed.

Lemma ToMat64_ToMatrix_witness :
  ToMatrix (mkDense 1 2 [PrimFloat.one; PrimFloat.two])
  = Ret (denseF64Array [1; 2] [PrimFloat.one; PrimFloat.two])
  ∧ ToMat64 (denseF64Array [1; 2] [PrimFloat.one; PrimFloat.two])
    = Ret (mkDense 1 2 [PrimFloat.one; PrimFloat.two]).
Proof.
  assert (wf_shape 1 2) as Hfit by (unfold wf_shape, Go.max_int; lia).
  destruct (ToMat64_ToMatrix 1 2 [PrimFloat.one; PrimFloat.two] Hfit eq_refl)
    as (Hto & _ & Hfrom).
  split; [exact Hto | exact Hfrom].
Defined.

(** Two well-formed matrices of one shape that agree on every cell look
    the same to the backend, whatever their storage. *)
Lemma ToMat64_ext (m1 m2 : Matrix) (rows cols : Z) :
  wf m1 → wf m2 → Shape m1 = [rows; cols] → Shape m2 = [rows; cols] →
  (∀ i j, 0 ≤ i < rows → 0 ≤ j < cols → Item m1 [i; j] = Item m2 [i; j]) →
  ToMat64 m1 = ToMat64 m2.
Proof.
  intros Hwf1 Hwf2 Hs1 Hs2 Hcells.
  assert (wf_shape rows cols) as (Hrows & Hcols & _).
  { destruct (wf_Shape m1 Hwf1) as (r & c & Hs & ?). congruence. }
  destruct (ToMat64_wf m1 rows cols Hwf1 Hs1) as (d1 & -> & Hlen1 & Hitems1).
  destruct (ToMat64_wf m2 rows cols Hwf2 Hs2) as (d2 & -> & Hlen2 & Hitems2).
  do 2 f_equal. apply list_eq. intros p.
  destruct (decide (Z.of_nat p < rows * cols)) as [Hp|Hp].
  - destruct (flatToNd_2d rows cols (Z.of_nat p)) as (i & j & _ & Hi & Hj & Hpos);
      [done | done | lia |].
    destruct (Hitems1 i j Hi Hj) as (v1 & Hv1 & Hlook1).
    destruct (Hitems2 i j Hi Hj) as (v2 & Hv2 & Hlook2).
    rewrite (Hcells i j Hi Hj), Hv2 in Hv1. injection Hv1 as ->.
    rewrite <- Hpos, Nat2Z.id in Hlook1, Hlook2. congruence.
  - rewrite !lookup_ge_None_2 by lia. done.
Qed.

Section BridgeStorage.
Context `{backend : Backend} `{norms : NormBackend}.

(** X7: the storage kind does not show through the bridge.  For two
    well-formed matrices of one shape that agree on every cell, ToMat64
    gives the same backend matrix, and so Inverse, Norm, and LDivide and
    Solve with either of them on either side give the same outcome. *)
Theorem bridge_storage_independent (m1 m2 : Matrix) (rows cols : Z) :
  wf m1 → wf m2 → Shape m1 = [rows; cols] → Shape m2 = [rows; cols] →
  (∀ i j, 0 ≤ i < rows → 0 ≤ j < cols → Item m1 [i; j] = Item m2 [i; j]) →
  ToMat64 m1 = ToMat64 m2
  ∧ Inverse m1 = Inverse m2
  ∧ (∀ ord, Norm m1 ord = Norm m2 ord)
  ∧ (∀ b, LDivide m1 b = LDivide m2 b ∧ LDivide b m1 = LDivide b m2
          ∧ Solve m1 b = Solve m2 b ∧ Solve b m1 = Solve b m2).
Proof.
  intros Hwf1 Hwf2 Hs1 Hs2 Hcells.
  pose proof (ToMat64_ext m1 m2 rows cols Hwf1 Hwf2 Hs1 Hs2 Hcells) as Heq.
  split; [done|]. split; [unfold Inverse; by rewrite Heq|].
  split; [intros ord; unfold Norm; by rewrite Heq|].
  intros b. unfold Solve, LDivide. by rewrite Heq, Hs1, Hs2.
Qed.

(** X8: what Inverse hands back.  For a well-formed matrix the
    conversion to the backend returns; when the backend's inversion
    returns a matrix of a valid shape and no error, Inverse returns that
    matrix as a dense matrix, cell for cell, and no error; when the
    backend panics, so does Inverse.  Whenever Inverse returns, exactly
    one of the matrix and the error is nil. *)
Theorem Inverse_outcomes (a : Matrix) :
  wf a →
  ∃ A, ToMat64 a = Ret A
       ∧ (∀ rows cols data,
            wf_shape rows cols → Z.of_nat (length data) = rows * cols →
            mat64_Inverse A = Ret (mkDense rows cols data, None) →
            Inverse a = Ret (Some (denseF64Array [rows; cols] data), None))
       ∧ (∀ why, mat64_Inverse A = Panic why → Inverse a = Panic why)
       ∧ (∀ om oe, Inverse a = Ret (om, oe) →
            (om = None ∧ oe ≠ None) ∨ (om ≠ None ∧ oe = None)).
Proof.
  intros Hwf. destruct (wf_Shape a Hwf) as (ra & ca & Hshape & _).
  destruct (ToMat64_wf a ra ca Hwf Hshape) as (da & HA & _).
  eexists. split; [exact HA|]. unfold Inverse. rewrite HA. cbn [bind].
  split; [|split].
  - intros rows cols data Hfit Hlen ->. cbn [bind snd fst].
    by rewrite ToMatrix_Ret.
  - by intros why ->.
  - intros om oe. destruct (mat64_Inverse _) as [[inv [err|]]| |];
      cbn [bind snd fst]; try discriminate.
    + intros [= <- <-]. by left.
    + destruct (ToMatrix inv); cbn [bind]; try discriminate.
      intros [= <- <-]. by right.
Qed.

(** X9: what LDivide hands back when the system is solved.  For
    well-formed a and b both conversions return; when the backend's
    solve leaves a matrix of a valid shape and no error, LDivide and
    Solve return that matrix as a dense matrix, cell for cell; when the
    backend panics (as mat64 does on mismatched dimensions), so do
    they. *)
Theorem LDivide_solved (a b : Matrix) :
  wf a → wf b →
  ∃ A B, ToMat64 a = Ret A ∧ ToMat64 b = Ret B
         ∧ (∀ rows cols data,
              wf_shape rows cols → Z.of_nat (length data) = rows * cols →
              mat64_Solve A B = Ret (mkDense rows cols data, None) →
              LDivide a b = Ret (denseF64Array [rows; cols] data)
              ∧ Solve a b = Ret (denseF64Array [rows; cols] data))
         ∧ (∀ why, mat64_Solve A B = Panic why →
              LDivide a b = Panic why ∧ Solve a b = Panic why).
Proof.
  intros Hwfa Hwfb.
  destruct (wf_Shape a Hwfa) as (ra & ca & Hsa & _).
  destruct (wf_Shape b Hwfb) as (rb & cb & Hsb & _).
  destruct (ToMat64_wf a ra ca Hwfa Hsa) as (da & HA & _).
  destruct (ToMat64_wf b rb cb Hwfb Hsb) as (db & HB & _).
  eexists _, _. split; [exact HA|]. split; [exact HB|].
  unfold Solve, LDivide. rewrite HA, HB. cbn [bind]. split.
  - intros rows cols data Hfit Hlen ->. cbn [bind snd fst].
    by rewrite ToMatrix_Ret.
  - by intros why ->.
Qed.

End BridgeStorage.

Lemma bridge_storage_independent_witness :
  Inverse (backend := closed_form_backend)
    (sparseDiagF64Matrix [2; 2] [PrimFloat.one; PrimFloat.two])
  = Inverse (backend := closed_form_backend)
      (denseF64Array [2; 2]
         [PrimFloat.one; PrimFloat.zero; PrimFloat.zero; PrimFloat.two])
  ∧ Norm (H := closed_form_norm)
      (sparseDiagF64Matrix [2; 2] [PrimFloat.one; PrimFloat.two])
      PrimFloat.infinity
    = Norm (H := closed_form_norm)
        (denseF64Array [2; 2]
           [PrimFloat.one; PrimFloat.zero; PrimFloat.zero; PrimFloat.two])
        PrimFloat.infinity.
Proof.
  assert (wf_shape 2 2) as Hfit by (unfold wf_shape, Go.max_int; lia).
  pose (m1 := sparseDiagF64Matrix [2; 2] [PrimFloat.one; PrimFloat.two]).
  pose (m2 := denseF64Array [2; 2]
                [PrimFloat.one; PrimFloat.zero; PrimFloat.zero; PrimFloat.two]).
  assert (wf m1) as Hwf1 by (exists 2, 2; done).
  assert (wf m2) as Hwf2 by (exists 2, 2; done).
  destruct (bridge_storage_independent (backend := closed_form_backend)
              (norms := closed_form_norm) m1 m2 2 2 Hwf1 Hwf2 eq_refl eq_refl)
    as (_ & Hinv & Hnorm & _).
  - intros i j Hi Hj.
    assert ((i = 0 ∨ i = 1) ∧ (j = 0 ∨ j = 1)) as [[-> | ->] [-> | ->]] by lia;
      reflexivity.
  - split; [exact Hinv | exact (Hnorm PrimFloat.infinity)].
Defined.

Lemma Inverse_outcomes_witness :
  Inverse (backend := closed_form_backend)
    (sparseDiagF64Matrix [2; 2] [PrimFloat.one; PrimFloat.one])
  = Ret (Some (denseF64Array [2; 2]
                 [PrimFloat.one; PrimFloat.opp PrimFloat.zero;
                  PrimFloat.opp PrimFloat.zero; PrimFloat.one]),
         None).
Proof.
  assert (wf_shape 2 2) as Hfit by (unfold wf_shape, Go.max_int; lia).
  assert (wf (sparseDiagF64Matrix [2; 2] [PrimFloat.one; PrimFloat.one])) as Hwf
    by (exists 2, 2; done).
  destruct (Inverse_outcomes (backend := closed_form_backend) _ Hwf)
    as (A & HA & Hok & _).
  injection HA as <-.
  exact (Hok 2 2
           [PrimFloat.one; PrimFloat.opp PrimFloat.zero;
            PrimFloat.opp PrimFloat.zero; PrimFloat.one]
           Hfit eq_refl eq_refl).
Defined.

Lemma LDivide_solved_witness :
  LDivide (backend := closed_form_backend)
    (sparseDiagF64Matrix [2; 2] [PrimFloat.one; PrimFloat.one])
    (denseF64Array [2; 1] [PrimFloat.one; PrimFloat.two])
  = Ret (denseF64Array [2; 1] [PrimFloat.one; PrimFloat.two]).
Proof.
  assert (wf_shape 2 1) as Hfit by (unfold wf_shape, Go.max_int; lia).
  assert (wf (sparseDiagF64Matrix [2; 2] [PrimFloat.one; PrimFloat.one])) as Hwf
    by (exists 2, 2; split; [done|]; split; [|done];
        unfold wf_shape, Go.max_int; lia).
  destruct (LDivide_solved (backend := closed_form_backend) _ _ Hwf wf_column)
    as (A & B & HA & HB & Hok & _).
  injection HA as <-. injection HB as <-.
  exact (proj1 (Hok 2 1 [PrimFloat.one; PrimFloat.two] Hfit eq_refl eq_refl)).
Defined.

(** ** More on the randomized population *)

Lemma ItemSet_coo_count_le (rows cols : Z) (values values' : list (gmap Z float64))
    (x : float64) (i j : Z) :
  Z.of_nat (length values) = rows → 0 ≤ i < rows → 0 ≤ j < cols →
  ItemSet (sparseCooF64Matrix [rows; cols] values) x [i; j]
  = Ret (sparseCooF64Matrix [rows; cols] values') →
  (sum_list_with size values' ≤ S (sum_list_with size values))%nat.
Proof.
  intros Hlen Hi Hj. unfold ItemSet.
  rewrite (proj2 (valid_coord_2d rows cols [i; j])) by (exists i, j; done).
  destruct (lookup_lt_is_Some_2 values (Z.to_nat i)) as [row Hrow]; [lia|].
  rewrite (proj2 (slice_get_Ret values i row)) by (split; [lia | done]).
  cbn [bind]. rewrite slice_set_Ret by lia. cbn [bind].
  intros [= <-].
  rewrite insert_take_drop by lia.
  rewrite <- (take_drop_middle values (Z.to_nat i) row Hrow) at 3.
  rewrite !sum_list_with_app. cbn [sum_list_with].
  rewrite map_size_insert. destruct (row !! j); unfold id; lia.
Qed.

(** One pass of the inner loop, whatever the source: if it returns, the
    storage has gained at most one entry, at a cell of the matrix. *)
Lemma place_bound (draw : Rand → outcome (float64 * Rand)) (rows cols total : Z)
    (fuel : nat) :
  ∀ (values : list (gmap Z float64)) (r : Rand) (cells : gset Z)
    (st : Matrix * Rand),
    Z.of_nat (length values) = rows →
    covered rows cols cells values →
    place draw [rows; cols] total fuel (sparseCooF64Matrix [rows; cols] values) r
    = Ret st →
    ∃ values' z,
      st.1 = sparseCooF64Matrix [rows; cols] values'
      ∧ Z.of_nat (length values') = rows
      ∧ covered rows cols (cells ∪ {[z]}) values'
      ∧ (sum_list_with size values' ≤ S (sum_list_with size values))%nat.
Proof.
  induction fuel as [|fuel IH]; intros values r cells st Hlen Hcov Hplace;
    cbn [place] in Hplace; [discriminate|].
  apply bind_Ret in Hplace as (zr & _ & Hplace).
  apply bind_Ret in Hplace as (coord & Hflat & Hplace).
  apply bind_Ret in Hplace as (v & _ & Hplace).
  destruct (Go.feq v Go.fzero); [|by apply (IH values zr.2 cells)].
  apply bind_Ret in Hplace as (xr & _ & Hplace).
  apply bind_Ret in Hplace as (m' & Hset & [= <-]). cbn [fst].
  apply flatToNd_2d_inv in Hflat as (i & j & -> & _ & Hi & Hj & _); [|lia].
  destruct (ItemSet_coo rows cols values xr.1 i j Hlen Hi Hj)
    as (values' & Hset' & Hlen' & _ & Hother).
  rewrite Hset' in Hset. injection Hset as <-.
  exists values', (i * cols + j). split; [done|]. split; [lia|]. split.
  - intros i' j' Hi' Hj' Hsome.
    destruct (decide (i' = i ∧ j' = j)) as [[-> ->]|Hne].
    + by apply elem_of_union_r, elem_of_singleton.
    + rewrite Hother in Hsome by done. by apply elem_of_union_l, Hcov.
  - by apply (ItemSet_coo_count_le rows cols values values' xr.1 i j).
Qed.

Lemma populate_bound (draw : Rand → outcome (float64 * Rand)) (rows cols total : Z)
    (l : list Z) :
  ∀ (values : list (gmap Z float64)) (r : Rand) (cells : gset Z)
    (st : Matrix * Rand),
    Z.of_nat (length values) = rows →
    covered rows cols cells values →
    for_each
      (λ (st : Matrix * Rand) (_ : Z),
         place draw [rows; cols] total (S (length (intn_tape st.2))) st.1 st.2)
      l (sparseCooF64Matrix [rows; cols] values, r)
    = Ret st →
    ∃ values' cells',
      st.1 = sparseCooF64Matrix [rows; cols] values'
      ∧ Z.of_nat (length values') = rows
      ∧ covered rows cols cells' values'
      ∧ (size cells' ≤ size cells + length l)%nat
      ∧ (sum_list_with size values'
         ≤ sum_list_with size values + length l)%nat.
Proof.
  induction l as [|y l IH]; intros values r cells st Hlen Hcov Hloop;
    cbn [for_each] in Hloop.
  - injection Hloop as <-. exists values, cells. cbn [fst length].
    do 3 (split; [done|]). lia.
  - apply bind_Ret in Hloop as ([m1 r1] & Hplace & Hloop). cbn [fst snd] in Hplace.
    destruct (place_bound draw rows cols total _ values r cells _ Hlen Hcov Hplace)
      as (values1 & z & Hm1 & Hlen1 & Hcov1 & Hsum1).
    cbn [fst] in Hm1. subst m1.
    destruct (IH values1 r1 (cells ∪ {[z]}) st Hlen1 Hcov1 Hloop)
      as (values' & cells' & Hst & Hlen' & Hcov' & Hsize' & Hsum').
    exists values', cells'. do 3 (split; [done|]). cbn [length].
    pose proof (size_union_alt cells {[z]}) as Hu.
    pose proof (subseteq_size ({[z]} ∖ cells) {[z]}) as Hd.
    rewrite size_singleton in Hd.
    assert (size ({[z]} ∖ cells) ≤ 1)%nat
      by (apply Hd; intros w [Hw _]%elem_of_difference; done).
    lia.
Qed.

Lemma CountNonzero_covered (rows cols : Z) (values : list (gmap Z float64))
    (cells : gset Z) :
  Z.of_nat (length values) = rows →
  covered rows cols cells values →
  (CountNonzero (sparseCooF64Matrix [rows; cols] values) ≤ size cells)%nat.
Proof.
  intros Hlen Hcov. unfold CountNonzero.
  set (nonzero := filter _ _).
  assert (NoDup nonzero) as Hnodup by apply NoDup_filter, NoDup_seqZ.
  rewrite <- (size_list_to_set (C := gset Z) nonzero Hnodup).
  apply subseteq_size. intros flat Hflat.
  apply elem_of_list_to_set in Hflat. unfold nonzero in Hflat.
  apply list_elem_of_filter in Hflat as [Hnz _].
  unfold is_nonzero, cell in Hnz. cbn [Shape] in Hnz.
  destruct (flatToNd [rows; cols] flat) as [coord| |] eqn:Hcoord;
    cbn [bind] in Hnz; try discriminate.
  apply flatToNd_2d_inv in Hcoord as (i & j & -> & _ & Hi & Hj & ->); [|lia].
  rewrite Item_coo in Hnz by done.
  apply Hcov; [done | done |].
  destruct (entry values i j); [done | discriminate].
Qed.

Lemma populate_at_most_aux (draw : Rand → outcome (float64 * Rand))
    (rows cols : Z) (density : float64) (r : Rand) (st : Matrix * Rand) :
  populate draw rows cols density r = Ret st →
  ∃ values,
    st.1 = sparseCooF64Matrix [rows; cols] values
    ∧ Z.of_nat (length values) = rows
    ∧ (CountNonzero st.1
       ≤ Z.to_nat (target_count (Go.mul rows cols) density))%nat
    ∧ (stored_entries st.1
       ≤ Z.to_nat (target_count (Go.mul rows cols) density))%nat.
Proof.
  unfold populate. intros Hpop.
  apply bind_Ret in Hpop as (m0 & Hcoo & Hloop).
  pose proof (SparseCoo_spec rows cols []) as Hspec. rewrite Hcoo in Hspec.
  destruct Hspec as (Hrows & values0 & -> & Hlen0 & _ & Hent0).
  assert (covered rows cols ∅ values0) as Hcov0.
  { intros i j _ _. rewrite Hent0, literal_entry_nil. by intros [? [=]]. }
  assert (sum_list_with size values0 = 0%nat) as Hsum0.
  { unfold SparseCoo in Hcoo. rewrite make_Ret in Hcoo by done.
    injection Hcoo as <-. generalize (Z.to_nat rows).
    induction n as [|n IH]; cbn; [done|]. by rewrite map_size_empty. }
  destruct (populate_bound draw rows cols _ _ values0 r ∅ st Hlen0 Hcov0 Hloop)
    as (values & cells & Hst & Hlen & Hcov & Hsize & Hsum).
  exists values. split; [done|]. split; [done|].
  unfold upto in Hsize, Hsum. rewrite length_seqZ in Hsize, Hsum.
  rewrite size_empty in Hsize. rewrite Hst. split.
  - pose proof (CountNonzero_covered rows cols values cells Hlen Hcov). lia.
  - cbn [stored_entries]. lia.
Qed.

(** X10: SparseRand and SparseRandN never overfill.  Whatever the random
    source does and whatever the arguments, a matrix they return is a
    sparse coordinate matrix of the shape asked for, with one map per
    row, and has at most int(float64(rows*cols) * density) nonzero cells
    and at most that many stored entries. *)
Theorem populate_at_most (rows cols : Z) (density : float64) (r r' : Rand)
    (m : Matrix) :
  SparseRand rows cols density r = Ret (m, r')
  ∨ SparseRandN rows cols density r = Ret (m, r') →
  ∃ values,
    m = sparseCooF64Matrix [rows; cols] values
    ∧ Z.of_nat (length values) = rows
    ∧ (CountNonzero m ≤ Z.to_nat (target_count (Go.mul rows cols) density))%nat
    ∧ (stored_entries m ≤ Z.to_nat (target_count (Go.mul rows cols) density))%nat.
Proof.
  unfold SparseRand, SparseRandN.
  destruct (bad_density density); [by intros [?|?]|].
  intros [Hpop|Hpop];
    by apply (populate_at_most_aux _ rows cols density r (m, r')) in Hpop.
Qed.

Lemma populate_at_most_witness :
  ∃ m r',
    SparseRand 1 3 (PrimFloat.add half (PrimFloat.mul half half))
      (mkRand [0; 0] [Go.fzero; half] [])
    = Ret (m, r')
    ∧ (CountNonzero m ≤ 2)%nat.
Proof.
  pose (density := PrimFloat.add half (PrimFloat.mul half half)).
  pose (r := mkRand [0; 0] [Go.fzero; half] []).
  destruct (SparseRand 1 3 density r) as [[m r']| |] eqn:Hrand;
    try discriminate Hrand.
  destruct (populate_at_most 1 3 density r r' m (or_introl Hrand))
    as (values & _ & _ & Hnz & _).
  exists m, r'. split; [exact Hrand | exact Hnz].
Defined.

Lemma occupied_empty (rows cols : Z) :
  0 ≤ rows →
  occupied rows cols ∅ (replicate (Z.to_nat rows) (∅ : gmap Z float64)).
Proof.
  intros Hrows. split; [rewrite length_replicate; lia|].
  split; [intros z Hz; by apply not_elem_of_empty in Hz|]. split.
  - rewrite size_empty. generalize (Z.to_nat rows).
    induction n as [|n IH]; simpl; [done|]. by rewrite map_size_empty.
  - intros i j _ _. rewrite entry_replicate_empty. apply not_elem_of_empty.
Qed.

Lemma CountNonzero_occupied (rows cols : Z) (values : list (gmap Z float64))
    (cells : gset Z) :
  0 ≤ rows → 0 ≤ cols →
  occupied rows cols cells values →
  CountNonzero (sparseCooF64Matrix [rows; cols] values) = size cells
  ∧ stored_entries (sparseCooF64Matrix [rows; cols] values) = size cells.
Proof.
  intros Hrows Hcols (Hlen & Hcells & Hcount & Hentries).
  split; [|done].
  unfold CountNonzero. cbn [Shape product foldr]. rewrite Z.mul_1_r.
  unfold size at 1, set_size. simpl. apply Permutation_length.
  apply NoDup_Permutation.
  - apply NoDup_filter, NoDup_seqZ.
  - apply NoDup_elements.
  - intros flat. rewrite list_elem_of_filter, elem_of_upto, elem_of_elements.
    unfold is_nonzero, cell. cbn [Shape]. split.
    + intros [Hnz _].
      destruct (flatToNd [rows; cols] flat) as [coord| |] eqn:Hcoord;
        cbn [bind] in Hnz; try discriminate.
      apply flatToNd_2d_inv in Hcoord as (i & j & -> & _ & Hi & Hj & ->); [|done].
      rewrite Item_coo in Hnz by done. specialize (Hentries i j Hi Hj).
      destruct (entry values i j); [by destruct Hentries | discriminate].
    + intros Hin. specialize (Hcells flat Hin). split; [|lia].
      destruct (flatToNd_2d rows cols flat) as (i & j & -> & Hi & Hj & ->);
        [done | done | lia |].
      cbn [bind]. rewrite Item_coo by done. specialize (Hentries i j Hi Hj).
      destruct (entry values i j) as [w|]; [|done].
      by destruct Hentries.
Qed.

Section Occupy.
Context (draw : Rand → outcome (float64 * Rand)) (ready : nat → Rand → Prop).
Hypothesis ready_draw :
  ∀ n r, ready (S n) r →
    ∃ x r', draw r = Ret (x, r') ∧ Go.fne x Go.fzero = true
            ∧ intn_tape r' = intn_tape r ∧ ready n r'.
Hypothesis ready_Intn :
  ∀ n r tape,
    ready n r → ready n (mkRand tape (float64_tape r) (normfloat64_tape r)).

(** One pass of the inner loop with a source that has a nonzero value
    ready: with a draw ahead on the Intn tape that hits a cell without
    an entry it returns, and the storage has one more entry, at a cell
    that had none. *)
Lemma place_occupies (rows cols : Z) (fuel : nat) :
  0 ≤ rows → 0 ≤ cols → 0 < rows * cols →
  ∀ (values : list (gmap Z float64)) (r : Rand) (cells : gset Z) (n : nat),
    occupied rows cols cells values →
    Forall (λ z, 0 ≤ z < rows * cols) (intn_tape r) →
    (length (intn_tape r) < fuel)%nat →
    (∃ z, z ∈ intn_tape r ∧ z ∉ cells) →
    ready (S n) r →
    ∃ values' z0 r',
      place draw [rows; cols] (rows * cols) fuel
        (sparseCooF64Matrix [rows; cols] values) r
      = Ret (sparseCooF64Matrix [rows; cols] values', r')
      ∧ occupied rows cols (cells ∪ {[z0]}) values'
      ∧ (z0 ∉ cells)
      ∧ Forall (λ z, 0 ≤ z < rows * cols) (intn_tape r')
      ∧ (∀ z, z ∈ intn_tape r → z ∈ cells ∨ z = z0 ∨ z ∈ intn_tape r')
      ∧ ready n r'.
Proof.
  intros Hrows Hcols Hsize. induction fuel as [|fuel IH];
    intros values r cells n Hocc Hints Hfuel (zf & Hzf & Hfresh) Hready; [lia|].
  pose proof Hocc as (Hlen & Hcells & Hcount & Hentries).
  cbn [place]. unfold Intn. destruct (Z.leb_spec (rows * cols) 0); [lia|].
  destruct (intn_tape r) as [|z tape] eqn:Htape; [by apply elem_of_nil in Hzf|].
  apply Forall_cons in Hints as [Hz Hints]. cbn [bind fst snd].
  destruct (flatToNd_2d rows cols z) as (i & j & -> & Hi & Hj & ->);
    [done | done | done |].
  cbn [bind]. rewrite Item_coo by done. cbn [bind].
  pose proof (Hentries i j Hi Hj) as Hentry.
  pose proof (ready_Intn _ _ tape Hready) as Hready'.
  rewrite feq_fne. destruct (entry values i j) as [v|] eqn:Hv; cbn [from_option id].
  - destruct Hentry as (Hin & ->). cbn [negb].
    destruct (IH values (mkRand tape (float64_tape r) (normfloat64_tape r))
                cells n)
      as (values' & z0 & r' & Hplace & Hocc' & Hz0 & Hints' & Hcover & Hready'');
      [done | done | simpl in *; lia | | done |].
    { exists zf. split; [|done]. apply elem_of_cons in Hzf as [->|Hzf]; done. }
    exists values', z0, r'. split; [done|]. do 3 (split; [done|]).
    split; [|done].
    intros z' [->|Hz']%elem_of_cons; [by left | by apply Hcover].
  - assert (Go.fne Go.fzero Go.fzero = false) as -> by done. cbn [negb].
    destruct (ready_draw _ _ Hready') as (x & r' & -> & Hnz & Htape' & Hready'').
    cbn [bind fst snd].
    destruct (ItemSet_coo rows cols values x i j Hlen Hi Hj)
      as (values' & Hset & Hlen' & Hsame & Hother).
    rewrite Hset. cbn [bind].
    exists values', (i * cols + j), r'. split; [done|].
    cbn [intn_tape] in Htape'. rewrite Htape'.
    split; [|split; [done|split; [done|split; [|done]]]].
    + split; [lia|]. split; [|split].
      * intros z' [Hz'|Hz']%elem_of_union; [by apply Hcells|].
        apply elem_of_singleton in Hz' as ->. done.
      * rewrite (ItemSet_coo_count rows cols values values' x i j) by done.
        rewrite size_union by (by apply disjoint_singleton_r).
        rewrite size_singleton. lia.
      * intros i' j' Hi' Hj'. destruct (decide (i' = i ∧ j' = j)) as [[-> ->]|Hne].
        -- rewrite Hsame. split; [|done].
           by apply elem_of_union_r, elem_of_singleton.
        -- rewrite Hother by done. specialize (Hentries i' j' Hi' Hj').
           assert (i' * cols + j' ≠ i * cols + j) as Hpos.
           { intros Heq. apply Hne. by apply (flat_position_inj cols). }
           destruct (entry values i' j') as [w|].
           ++ destruct Hentries as (? & ?). split; [|done].
              by apply elem_of_union_l.
           ++ intros [Hin|Hin]%elem_of_union; [done|].
              by apply elem_of_singleton in Hin.
    + intros z' [->|Hz']%elem_of_cons; [right; by left | right; by right].
Qed.

Lemma populate_occupies (rows cols : Z) (l : list Z) :
  0 ≤ rows → 0 ≤ cols → 0 < rows * cols →
  ∀ (values : list (gmap Z float64)) (r : Rand) (cells : gset Z),
    occupied rows cols cells values →
    Forall (λ z, 0 ≤ z < rows * cols) (intn_tape r) →
    (length l ≤ size (list_to_set (intn_tape r) ∖ cells : gset Z))%nat →
    ready (length l) r →
    ∃ values' r' cells',
      for_each
        (λ (st : Matrix * Rand) (_ : Z),
           place draw [rows; cols] (rows * cols)
             (S (length (intn_tape st.2))) st.1 st.2)
        l (sparseCooF64Matrix [rows; cols] values, r)
      = Ret (sparseCooF64Matrix [rows; cols] values', r')
      ∧ occupied rows cols cells' values'
      ∧ size cells' = (size cells + length l)%nat.
Proof.
  intros Hrows Hcols Hsize.
  induction l as [|y l IH]; intros values r cells Hocc Hints Hfresh Hready.
  - exists values, r, cells. split; [done|]. split; [done|]. simpl. lia.
  - cbn [for_each length fst snd] in *.
    destruct (size_pos_elem_of (list_to_set (intn_tape r) ∖ cells : gset Z))
      as [zf Hzf]; [lia|].
    apply elem_of_difference in Hzf as [Hzf Hzfresh].
    apply elem_of_list_to_set in Hzf.
    destruct (place_occupies rows cols (S (length (intn_tape r))) Hrows Hcols Hsize
                values r cells (length l))
      as (values1 & z0 & r1 & -> & Hocc1 & Hz0 & Hints1 & Hcover & Hready1);
      [done | done | lia | by exists zf | done |].
    cbn [bind].
    destruct (IH values1 r1 (cells ∪ {[z0]}))
      as (values' & r' & cells' & Hloop & Hocc' & Hsize');
      [done | done | | done |].
    + assert (list_to_set (intn_tape r) ∖ cells
              ⊆ {[z0]} ∪ (list_to_set (intn_tape r1) ∖ (cells ∪ {[z0]}) : gset Z))
        as Hsub.
      { intros z [Hz Hzc]%elem_of_difference. apply elem_of_list_to_set in Hz.
        destruct (decide (z = z0)) as [->|Hne];
          [by apply elem_of_union_l, elem_of_singleton|].
        destruct (Hcover z Hz) as [?|[?|Hin]]; [done | done |].
        apply elem_of_union_r, elem_of_difference.
        split; [by apply elem_of_list_to_set|].
        intros [Hc|Hc]%elem_of_union; [done|].
        by apply elem_of_singleton in Hc. }
      pose proof (subseteq_size
                    (list_to_set (intn_tape r) ∖ cells : gset Z) _ Hsub) as Hle.
      assert (size ({[z0]} ∪ (list_to_set (intn_tape r1) ∖ (cells ∪ {[z0]}))
                    : gset Z)
              = S (size (list_to_set (intn_tape r1) ∖ (cells ∪ {[z0]}) : gset Z)))
        as Hu.
      { rewrite size_union, size_singleton; [done|].
        apply disjoint_singleton_l. intros [_ Hc]%elem_of_difference.
        by apply Hc, elem_of_union_r, elem_of_singleton. }
      lia.
    + exists values', r', cells'. split; [done|]. split; [done|].
      rewrite Hsize', size_union, size_singleton
        by (by apply disjoint_singleton_r). lia.
Qed.

End Occupy.

Lemma normals_ready_draw (n : nat) (r : Rand) :
  normals_ready (S n) r →
  ∃ x r', NormFloat64 r = Ret (x, r') ∧ Go.fne x Go.fzero = true
          ∧ intn_tape r' = intn_tape r ∧ normals_ready n r'.
Proof.
  intros [Hlen Hnz]. unfold NormFloat64.
  destruct (normfloat64_tape r) as [|x tape]; [simpl in Hlen; lia|].
  apply Forall_cons in Hnz as [Hx Hnz].
  eexists _, _. split; [done|]. split; [done|]. split; [done|].
  split; [simpl in *; lia | done].
Qed.

Lemma normals_ready_Intn (n : nat) (r : Rand) (tape : list Z) :
  normals_ready n r →
  normals_ready n (mkRand tape (float64_tape r) (normfloat64_tape r)).
Proof. done. Qed.

(** X11: the exact count of SparseRandN.  On a valid shape and with a
    density that passes the check, let count be
    int(float64(rows*cols) * density).  If Intn stays within the cells
    and has count distinct cells ahead, and NormFloat64 has count values
    ahead and never hands out zero, SparseRandN returns a sparse
    coordinate matrix with exactly count nonzero cells and exactly count
    entries. *)
Theorem SparseRandN_count (rows cols : Z) (density : float64) (r : Rand) :
  wf_shape rows cols →
  bad_density density = false →
  Forall (λ z, 0 ≤ z < rows * cols) (intn_tape r) →
  Forall (λ x, Go.fne x Go.fzero = true) (normfloat64_tape r) →
  (Z.to_nat (target_count (rows * cols) density)
   ≤ size (list_to_set (intn_tape r) : gset Z))%nat →
  (Z.to_nat (target_count (rows * cols) density)
   ≤ length (normfloat64_tape r))%nat →
  ∃ values r',
    SparseRandN rows cols density r
    = Ret (sparseCooF64Matrix [rows; cols] values, r')
    ∧ CountNonzero (sparseCooF64Matrix [rows; cols] values)
      = Z.to_nat (target_count (rows * cols) density)
    ∧ stored_entries (sparseCooF64Matrix [rows; cols] values)
      = Z.to_nat (target_count (rows * cols) density).
Proof.
  intros Hfit Hbad Hints Hnonzero Hdistinct Hvalues.
  pose proof Hfit as (Hrows & Hcols & _).
  destruct (SparseCoo_total rows cols []) as (empty & Hcoo & Hlen & _);
    [done | simpl; nia |].
  assert (empty = replicate (Z.to_nat rows) (∅ : gmap Z float64)) as ->.
  { unfold SparseCoo in Hcoo. rewrite make_Ret in Hcoo by done.
    by injection Hcoo as <-. }
  pose proof (occupied_empty rows cols Hrows) as Hempty.
  unfold SparseRandN. rewrite Hbad. unfold populate. rewrite Hcoo. cbn [bind].
  rewrite mul_wf by done.
  destruct (Z.le_gt_cases (target_count (rows * cols) density) 0) as [Hcount|Hcount].
  { rewrite upto_nonpos by done. cbn [for_each].
    replace (Z.to_nat (target_count (rows * cols) density)) with 0%nat by lia.
    destruct (CountNonzero_occupied rows cols _ _ Hrows Hcols Hempty) as [Hnz Hst].
    rewrite size_empty in Hnz, Hst. eexists _, _. done. }
  assert (0 < rows * cols) as Hsize.
  { destruct (size_pos_elem_of (list_to_set (intn_tape r) : gset Z))
      as [z Hz]; [lia|].
    apply elem_of_list_to_set in Hz.
    rewrite Forall_forall in Hints. specialize (Hints z Hz). lia. }
  destruct (populate_occupies NormFloat64 normals_ready
              normals_ready_draw normals_ready_Intn rows cols
              (upto (target_count (rows * cols) density)) Hrows Hcols Hsize
              _ r ∅ Hempty)
    as (values & r' & cells & -> & Hocc & Hcells).
  - done.
  - unfold upto. rewrite length_seqZ, difference_empty_L. done.
  - unfold upto. rewrite length_seqZ. done.
  - destruct (CountNonzero_occupied rows cols _ _ Hrows Hcols Hocc) as [Hnz Hst].
    exists values, r'. split; [done|].
    unfold upto in Hcells. rewrite length_seqZ, size_empty in Hcells.
    rewrite Hnz, Hst, Hcells. done.
Qed.

Lemma SparseRandN_count_witness :
  ∃ values r',
    SparseRandN 2 2 half
      (mkRand [3; 3; 0] [] [PrimFloat.opp PrimFloat.two; PrimFloat.one])
    = Ret (sparseCooF64Matrix [2; 2] values, r')
    ∧ CountNonzero (sparseCooF64Matrix [2; 2] values) = 2%nat.
Proof.
  assert (wf_shape 2 2) as Hfit by (unfold wf_shape, Go.max_int; lia).
  destruct (SparseRandN_count 2 2 half
              (mkRand [3; 3; 0] [] [PrimFloat.opp PrimFloat.two; PrimFloat.one])
              Hfit)
    as (values & r' & Hret & Hnz & _).
  - reflexivity.
  - repeat constructor; lia.
  - repeat constructor.
  - vm_compute. lia.
  - vm_compute. lia.
  - exists values, r'. split; [exact Hret | exact Hnz].
Defined.

(** ** Diagonal matrices at the backend *)

Lemma At_lookup (rows cols : Z) (data : list float64) (i j : Z) (v : float64) :
  0 ≤ i < rows → 0 ≤ j < cols →
  data !! Z.to_nat (i * cols + j) = Some v →
  At (mkDense rows cols data) i j = Ret v.
Proof.
  intros Hi Hj Hv. unfold At. cbn [mat_rows mat_cols mat_data].
  destruct (Z.leb_spec 0 i), (Z.ltb_spec i rows), (Z.leb_spec 0 j),
    (Z.ltb_spec j cols); try lia. cbn [andb].
  apply slice_get_Ret. split; [nia | done].
Qed.

Lemma diag_buffer_lookup (diag : list float64) (n : nat) (i : Z) :
  0 ≤ i < Z.of_nat (length diag + n) →
  slice_get (diag ++ replicate n Go.fzero) i
  = Ret (default Go.fzero (diag !! Z.to_nat i)).
Proof.
  intros Hi. apply slice_get_Ret. split; [lia|].
  destruct (diag !! Z.to_nat i) as [v|] eqn:Hv.
  - by rewrite lookup_app_l by (by apply lookup_lt_Some in Hv).
  - apply lookup_ge_None in Hv. rewrite lookup_app_r by done.
    apply lookup_replicate_2. lia.
Qed.

(** X12: SparseDiag composed with ToMat64.  With at most min(rows, cols)
    values and a cell count that fits an int, the matrix SparseDiag
    builds is handed to the backend as a rows x cols matrix that holds
    the i-th value at (i, i), zero at (i, i) past the values, and zero
    at every other cell. *)
Theorem SparseDiag_ToMat64 (rows cols : Z) (diag : list float64) :
  Z.of_nat (length diag) ≤ Z.min rows cols → rows * cols ≤ Go.max_int →
  ∃ m data,
    SparseDiag rows cols diag = Ret m
    ∧ wf m
    ∧ ToMat64 m = Ret (mkDense rows cols data)
    ∧ Z.of_nat (length data) = rows * cols
    ∧ ∀ i j, 0 ≤ i < rows → 0 ≤ j < cols →
        At (mkDense rows cols data) i j
        = Ret (if i =? j then default Go.fzero (diag !! Z.to_nat i)
               else Go.fzero).
Proof.
  intros Hlen Hfit.
  set (buf := diag ++ replicate (Z.to_nat (Z.min rows cols) - length diag) Go.fzero).
  assert (wf (sparseDiagF64Matrix [rows; cols] buf)) as Hwf.
  { exists rows, cols. split; [done|]. split; [unfold wf_shape; lia|].
    unfold buf. rewrite length_app, length_replicate. lia. }
  destruct (ToMat64_wf _ rows cols Hwf eq_refl) as (data & HA & Hdata & Hitems).
  exists (sparseDiagF64Matrix [rows; cols] buf), data.
  split; [by apply SparseDiag_Ret|]. do 3 (split; [done|]).
  intros i j Hi Hj. destruct (Hitems i j Hi Hj) as (v & Hv & Hlook).
  rewrite (At_lookup rows cols data i j v) by done. f_equal.
  rewrite Item_diag in Hv by done. destruct (Z.eqb_spec i j) as [<-|Hne].
  - unfold buf in Hv. rewrite diag_buffer_lookup in Hv by lia.
    by injection Hv as <-.
  - by injection Hv as <-.
Qed.

Lemma SparseDiag_ToMat64_witness :
  ∃ m, SparseDiag 2 3 [PrimFloat.two] = Ret m
       ∧ ToMat64 m
         = Ret (mkDense 2 3
                  [PrimFloat.two; Go.fzero; Go.fzero;
                   Go.fzero; Go.fzero; Go.fzero]).
Proof.
  destruct (SparseDiag_ToMat64 2 3 [PrimFloat.two])
    as (m & data & Hm & _ & HA & _); [simpl; lia | unfold Go.max_int; lia |].
  exists m. split; [exact Hm|].
  injection Hm as <-. exact eq_refl.
Defined.

(** X13: Eye composed with ToMat64.  For a size that is not negative and
    whose square fits an int, the backend receives the size x size
    identity matrix: one at (i, i), zero elsewhere. *)
Theorem Eye_ToMat64 (size : Z) :
  0 ≤ size → size * size ≤ Go.max_int →
  ∃ m data,
    Eye size = Ret m
    ∧ ToMat64 m = Ret (mkDense size size data)
    ∧ ∀ i j, 0 ≤ i < size → 0 ≤ j < size →
        At (mkDense size size data) i j
        = Ret (if i =? j then Go.fone else Go.fzero).
Proof.
  intros Hsize Hfit.
  set (ones := replicate (Z.to_nat size) Go.fone).
  assert (Eye size = Ret (sparseDiagF64Matrix [size; size] ones)) as Heye.
  { unfold Eye. rewrite make_Ret by done. cbn [bind].
    rewrite Eye_ones by done. cbn [bind].
    rewrite Diag_Ret, length_replicate. by rewrite Z2Nat.id by done. }
  assert (wf (sparseDiagF64Matrix [size; size] ones)) as Hwf.
  { exists size, size. split; [done|]. split; [done|].
    unfold ones. rewrite length_replicate. lia. }
  destruct (ToMat64_wf _ size size Hwf eq_refl) as (data & HA & Hdata & Hitems).
  exists (sparseDiagF64Matrix [size; size] ones), data.
  split; [done|]. split; [done|].
  intros i j Hi Hj. destruct (Hitems i j Hi Hj) as (v & Hv & Hlook).
  rewrite (At_lookup size size data i j v) by done. f_equal.
  rewrite Item_diag in Hv by done. destruct (Z.eqb_spec i j) as [<-|Hne].
  - apply slice_get_Ret in Hv as [_ Hv]. unfold ones in Hv.
    by apply lookup_replicate_1 in Hv as [-> _].
  - by injection Hv as <-.
Qed.

Lemma Eye_ToMat64_witness :
  ∃ m, Eye 2 = Ret m
       ∧ ToMat64 m
         = Ret (mkDense 2 2 [Go.fone; Go.fzero; Go.fzero; Go.fone]).
Proof.
  destruct (Eye_ToMat64 2) as (m & data & Hm & HA & _);
    [lia | unfold Go.max_int; lia |].
  exists m. split; [exact Hm|].
  injection Hm as <-. exact eq_refl.
Defined.

(** ** Densities that ask for nothing *)

Lemma target_count_NaN (size : Z) : target_count size Go.NaN ≤ 0.
Proof.
  unfold target_count, Go.int_of_float64.
  rewrite FloatAxioms.mul_spec.
  change (FloatOps.Prim2SF Go.NaN) with SpecFloat.S754_nan.
  destruct (FloatOps.Prim2SF (Go.float64_of_int size)) as [s | s | | s m e]; simpl;
    unfold Go.min_int; lia.
Qed.

Lemma populate_nothing (draw : Rand → outcome (float64 * Rand)) (rows cols : Z)
    (density : float64) (r : Rand) :
  wf_shape rows cols → target_count (rows * cols) density ≤ 0 →
  populate draw rows cols density r
  = Ret (sparseCooF64Matrix [rows; cols]
           (replicate (Z.to_nat rows) (∅ : gmap Z float64)), r).
Proof.
  intros Hfit Hcount. pose proof Hfit as (Hrows & _).
  unfold populate, SparseCoo. rewrite make_Ret by done. cbn [bind for_range].
  rewrite mul_wf by done. by rewrite upto_nonpos by done.
Qed.

(** X14: densities that ask for nothing.  On a valid shape, when the
    density is zero or NaN (which passes the check, no comparison with
    NaN being true) or when the matrix has no cell, SparseRand and
    SparseRandN return the empty sparse coordinate matrix of that shape
    and leave the random source as it was: nothing is drawn. *)
Theorem populate_without_draws (rows cols : Z) (density : float64) (r : Rand) :
  wf_shape rows cols →
  density = Go.fzero ∨ density = Go.NaN
  ∨ (rows * cols = 0 ∧ bad_density density = false) →
  SparseRand rows cols density r
  = Ret (sparseCooF64Matrix [rows; cols]
           (replicate (Z.to_nat rows) (∅ : gmap Z float64)), r)
  ∧ SparseRandN rows cols density r
    = Ret (sparseCooF64Matrix [rows; cols]
             (replicate (Z.to_nat rows) (∅ : gmap Z float64)), r)
  ∧ CountNonzero
      (sparseCooF64Matrix [rows; cols]
         (replicate (Z.to_nat rows) (∅ : gmap Z float64))) = 0%nat.
Proof.
  intros Hfit Hcase. pose proof Hfit as (Hrows & Hcols & _).
  assert (bad_density density = false
          ∧ target_count (rows * cols) density ≤ 0) as [Hbad Hcount].
  { destruct Hcase as [-> | [-> | [Hzero Hbad]]].
    - split; [done | apply target_count_density_zero].
    - split; [done | apply target_count_NaN].
    - split; [done|]. rewrite Hzero. apply target_count_zero. }
  unfold SparseRand, SparseRandN. rewrite Hbad.
  rewrite !populate_nothing by done. split; [done|]. split; [done|].
  destruct (CountNonzero_occupied rows cols _ _ Hrows Hcols
              (occupied_empty rows cols Hrows)) as [Hnz _].
  by rewrite size_empty in Hnz.
Qed.

Lemma populate_without_draws_witness :
  SparseRand 2 2 Go.NaN (mkRand [1] [half] [])
  = Ret (sparseCooF64Matrix [2; 2] [∅; ∅], mkRand [1] [half] []).
Proof.
  assert (wf_shape 2 2) as Hfit by (unfold wf_shape, Go.max_int; lia).
  destruct (populate_without_draws 2 2 Go.NaN (mkRand [1] [half] []) Hfit)
    as (Hrand & _); [right; left; reflexivity|].
  exact Hrand.
Defined.

(** ** The size of the storage SparseCoo builds *)

Lemma SparseCoo_loop_count (rows cols : Z) (array : list float64) :
  ∀ (k : Z) (values values' : list (gmap Z float64)),
    0 ≤ k → Z.of_nat (length values) = rows →
    (∀ i j, 0 ≤ i < rows → 0 ≤ j < cols → k ≤ i * cols + j →
       entry values i j = None) →
    for_range
      (λ m idx val,
         if Go.fne val Go.fzero then
           do coord <- flatToNd (Shape m) idx; ItemSet m val coord
         else Ret m)
      k array (sparseCooF64Matrix [rows; cols] values)
    = Ret (sparseCooF64Matrix [rows; cols] values') →
    sum_list_with size values'
    = (sum_list_with size values
       + length (filter (λ v, Go.fne v Go.fzero = true) array))%nat.
Proof.
  induction array as [|v array IH]; intros k values values' Hk Hlen Hfree Hloop;
    cbn [for_range] in Hloop.
  - injection Hloop as <-. cbn. lia.
  - apply bind_Ret in Hloop as (m1 & Hbody & Hloop).
    rewrite filter_cons. destruct (Go.fne v Go.fzero) eqn:Hv.
    + rewrite decide_True by done. cbn [length Shape] in *.
      apply bind_Ret in Hbody as (coord & Hflat & Hset).
      apply flatToNd_2d_inv in Hflat as (i0 & j0 & -> & _ & Hi0 & Hj0 & Hpos);
        [|lia].
      destruct (ItemSet_coo rows cols values v i0 j0 Hlen Hi0 Hj0)
        as (values1 & Hset' & Hlen1 & _ & Hother).
      rewrite Hset' in Hset. injection Hset as <-.
      rewrite (IH (k + 1) values1 values'); [| lia | lia | | done].
      * rewrite (ItemSet_coo_count rows cols values values1 v i0 j0);
          [lia | done | done | done | done |].
        apply Hfree; [done | done | lia].
      * intros i j Hi Hj Hge. rewrite Hother; [apply Hfree; [done | done | lia]|].
        intros [-> ->]. lia.
    + rewrite decide_False by done. injection Hbody as <-.
      apply (IH (k + 1) values values'); [lia | done | | done].
      intros i j Hi Hj Hge. apply Hfree; [done | done | lia].
Qed.

(** X15: SparseCoo stores one entry per nonzero literal value and
    nothing else: the number of entries of a matrix it returns is the
    number of literal values that compare unequal to zero. *)
Theorem SparseCoo_stored_entries (rows cols : Z) (array : list float64)
    (m : Matrix) :
  SparseCoo rows cols array = Ret m →
  stored_entries m = length (filter (λ v, Go.fne v Go.fzero = true) array).
Proof.
  intros Hm. pose proof (SparseCoo_spec rows cols array) as Hspec.
  rewrite Hm in Hspec. destruct Hspec as (Hrows & values & -> & Hlen & _).
  unfold SparseCoo in Hm. rewrite make_Ret in Hm by done. cbn [bind] in Hm.
  cbn [stored_entries].
  rewrite (SparseCoo_loop_count rows cols array 0 _ values
             (Z.le_refl 0) (eq_trans (f_equal Z.of_nat (length_replicate _ _))
                                      (Z2Nat.id rows Hrows))
             (λ i j _ _ _, entry_replicate_empty _ i j) Hm).
  assert (sum_list_with size (replicate (Z.to_nat rows) (∅ : gmap Z float64))
          = 0%nat) as ->; [|done].
  generalize (Z.to_nat rows).
  induction n as [|n IH]; cbn; [done|]. by rewrite map_size_empty.
Qed.

Lemma SparseCoo_stored_entries_witness :
  ∃ m, SparseCoo 2 2 [PrimFloat.one; PrimFloat.zero; PrimFloat.nan] = Ret m
       ∧ stored_entries m = 2%nat.
Proof.
  pose (array := [PrimFloat.one; PrimFloat.zero; PrimFloat.nan]).
  destruct (SparseCoo 2 2 array) as [m| |] eqn:Hm; try discriminate Hm.
  exists m. split; [exact Hm|].
  exact (SparseCoo_stored_entries 2 2 array m Hm).
Defined.
